(** * The 61 card game rules engine: a shallow embedding and its properties

    The definitions below follow the TypeScript sources of the engine
    (packages/shared and packages/engine): cards, the point and rank tables,
    the trick resolver, the lead policy, the punishment queue, the seeded
    deck factory and the match state machine (initMatch, drawAfterTrick,
    playHand, playCard).

    Conventions of the embedding:
    - JavaScript numbers that hold weights, points and scores are [Z];
      player indices and array positions are [nat];
    - arrays are lists, read with stdpp's lookup; reading a missing entry
      and then taking a property of it is a [TypeError];
    - a function that mutates the match state in place and may throw returns
      an [Outcome]: either [Returned v st'] or [Threw e st'], where [st'] is
      the state as the call left it;
    - the [while] loop of [playHand] takes a bound on its iterations, and
      termination is proved by exhibiting a bound that always suffices. *)

From Stdlib Require Import ZArith QArith Qround Lia.
From stdpp Require Import prelude strings.

Open Scope Z_scope.

(** ** Shared types and constants *)

Inductive Suit := spades | hearts | diamonds | clubs.

(** The ranks ['A' | '7' | 'K' | 'Q' | 'J' | '6' | '5' | '4' | '3']. *)
Inductive Rank := RA | R7 | RK | RQ | RJ | R6 | R5 | R4 | R3.

Record Card := mkCard { suit : Suit; rank : Rank }.

#[global] Instance Suit_eq_dec : EqDecision Suit.
Proof. solve_decision. Defined.

#[global] Instance Rank_eq_dec : EqDecision Rank.
Proof. solve_decision. Defined.

#[global] Instance Card_eq_dec : EqDecision Card.
Proof. solve_decision. Defined.

(** Points per rank (the POINTS record). *)
Definition POINTS (r : Rank) : Z :=
  match r with
  | RA => 11
  | R7 => 10
  | RK => 4
  | RJ => 3
  | RQ => 2
  | R6 | R5 | R4 | R3 => 0
  end.

Definition SUITS : list Suit := [spades; hearts; diamonds; clubs].

(** Ranks in strength order, highest first: the table of the shared module
    that carries the updated rules ("7 outranks K, Q, J"). *)
Definition RANK_ORDER : list Rank := [RA; R7; RK; RQ; RJ; R6; R5; R4; R3].

(** The repository also holds an earlier copy of the shared module whose
    table still lists 7 after J.  It is kept here only to record what that
    copy would do; the engine below reads [RANK_ORDER]. *)
Definition RANK_ORDER_legacy : list Rank := [RA; RK; RQ; RJ; R7; R6; R5; R4; R3].

(** ** Array helpers *)

(** [Array.prototype.indexOf]: first position of [x], or -1. *)
Fixpoint indexOfFrom {T} `{EqDecision T} (i : Z) (x : T) (l : list T) : Z :=
  match l with
  | [] => -1
  | y :: l' => if decide (y = x) then i else indexOfFrom (i + 1) x l'
  end.

Definition indexOf {T} `{EqDecision T} (x : T) (l : list T) : Z :=
  indexOfFrom 0 x l.

(** [Array.prototype.findIndex] with a boolean predicate; [None] is -1. *)
Fixpoint findIndex {T} (f : T -> bool) (l : list T) : option nat :=
  match l with
  | [] => None
  | y :: l' => if f y then Some 0%nat else S <$> findIndex f l'
  end.

(** [arr.splice(idx, 1)]: the array without its element at [idx]. *)
Definition splice1 {T} (idx : nat) (l : list T) : list T :=
  take idx l ++ drop (S idx) l.

(** [Math.max(...ws)] of a non-empty array, folded from its first element. *)
Definition maxOf (w : Z) (ws : list Z) : Z := fold_left Z.max ws w.

(** ** Teams and card weights *)

(** [player % 2]. *)
Definition teamOfPlayer (player : nat) : nat := (player mod 2)%nat.

(** [(order.length - 1) - order.indexOf(r)]. *)
Definition rankStrength (order : list Rank) (r : Rank) : Z :=
  (Z.of_nat (length order) - 1) - indexOf r order.

Definition cardWeight (card : Card) (trump : Suit) (led : option Suit) : Z :=
  let rs := rankStrength RANK_ORDER (rank card) in
  if decide (suit card = trump) then 200 + rs
  else if decide (led = Some (suit card)) then 100 + rs
  else rs.

(** ** Trick resolution *)

Record TrickPlay := mkPlay { player : nat; card : Card }.

Record TrickResult := mkResult {
  winner : option nat;
  points : Z;
  tie : bool
}.

Inductive Error :=
  | NoPlays            (* 'No plays to resolve' *)
  | NotYourTurn (p : nat)  (* `It's not player p's turn` *)
  | MissingCard        (* 'Player does not have that card' *)
  | TypeError.         (* property read on undefined *)

(** [weights.map((w, i) => (w === maxWeight ? i : -1)).filter((i) => i >= 0)],
    positions counted from [i]. *)
Fixpoint maxIndicesFrom (i : nat) (maxWeight : Z) (weights : list Z) : list nat :=
  match weights with
  | [] => []
  | w :: ws =>
      if decide (w = maxWeight) then i :: maxIndicesFrom (S i) maxWeight ws
      else maxIndicesFrom (S i) maxWeight ws
  end.

Definition trickPoints (plays : list TrickPlay) : Z :=
  fold_left (fun acc p => acc + POINTS (rank (card p))) plays 0.

Definition resolveTrick (plays : list TrickPlay) (trump : Suit)
  : Error + TrickResult :=
  match plays with
  | [] => inl NoPlays
  | p0 :: rest =>
      let led := suit (card p0) in
      let weights := map (fun p => cardWeight (card p) trump (Some led)) plays in
      let maxWeight := maxOf (cardWeight (card p0) trump (Some led))
                             (map (fun p => cardWeight (card p) trump (Some led)) rest) in
      let indices := maxIndicesFrom 0 maxWeight weights in
      let pts := trickPoints plays in
      if decide (1 < length indices)%nat then
        inr {| winner := None; points := pts; tie := true |}
      else
        match indices !! 0%nat ≫= (plays !!.) with
        | Some p => inr {| winner := Some (player p); points := pts; tie := false |}
        | None => inl TypeError
        end
  end.

(** ** Lead policy *)

Definition nextLead (currentLead : nat) (winner : option nat) : nat :=
  match winner with
  | None => currentLead
  | Some w =>
      let currentTeam := teamOfPlayer currentLead in
      let winnerTeam := teamOfPlayer w in
      if decide (winnerTeam = currentTeam) then currentLead else w
  end.

(** ** Punishment queue *)

Record PunishmentQueue := mkQueue { queue : list string; index : nat }.

Definition sequence : list string :=
  ["10"; "10"; "9"; "9"; "8"; "8"; "2"; "2"]%string.

(** A fresh [new PunishmentQueue()]. *)
Definition newPunishmentQueue : PunishmentQueue :=
  {| queue := []; index := 0 |}.

(** [submit()].  The cursor is private, starts at 0 and is only ever
    assigned a value reduced modulo the length of [sequence], so the read is
    in range (see [submit_index_in_range]); the branch for a read out of
    range is never taken and keeps the queue. *)
Definition submit (pq : PunishmentQueue) : PunishmentQueue :=
  let next := ((index pq + 1) mod length sequence)%nat in
  match sequence !! index pq with
  | Some label =>
      let pushed := queue pq ++ [label] in
      {| queue := if decide (label = "2"%string) then [] else pushed;
         index := next |}
  | None => {| queue := queue pq; index := next |}
  end.

(** ** Seeded random numbers *)

(** A JavaScript string as its sequence of UTF-16 code units
    ([charCodeAt] values, each in 0..65535). *)
Definition JsString := list Z.

Definition codeUnits (s : string) : JsString :=
  map (fun c => Z.of_N (Ascii.N_of_ascii c)) (String.list_ascii_of_string s).

Definition two32 : Z := 4294967296.

(** [stringToSeed].  [h] is kept as the unsigned reading of its 32 bits:
    [^] and [Math.imul] act on the same 32 bits whichever way they are read,
    and the final [h >>> 0] selects the unsigned reading. *)
Definition stringToSeed (str : JsString) : Z :=
  fold_left (fun h c => (Z.lxor h c * 16777619) mod two32) str 2166136261.

(** [createRng(seed)] captures [state = seed >>> 0]; the closure is modelled
    by that state and [rngNext], which returns the drawn value and the new
    state.  The product [a * state + c] stays below 2^53 and the division
    is by a power of two, so the double arithmetic of the source is exact
    and the value is the rational [state / m]. *)
Definition createRng (seed : Z) : Z := seed mod two32.

Definition rngNext (state : Z) : Q * Z :=
  let a := 1664525 in
  let c := 1013904223 in
  let state' := (a * state + c) mod two32 in
  (Qmake state' 4294967296%positive, state').

(** ** Deck factory *)

(** [[deck[i], deck[j]] = [deck[j], deck[i]]].  Both positions are inside
    the deck wherever the shuffle uses it; otherwise the deck is kept. *)
Definition swap {T} (i j : nat) (deck : list T) : list T :=
  match deck !! j, deck !! i with
  | Some dj, Some di => <[j := di]> (<[i := dj]> deck)
  | _, _ => deck
  end.

(** The 36 cards in enumeration order: for each suit, for each rank. *)
Definition orderedDeck : list Card :=
  let suits := [spades; hearts; diamonds; clubs] in
  let ranks := [RA; RK; RQ; RJ; R7; R6; R5; R4; R3] in
  flat_map (fun s => map (fun r => {| suit := s; rank := r |}) ranks) suits.

(** The Fisher-Yates loop [for (let i = deck.length - 1; i > 0; i--)],
    threading the generator state. *)
Fixpoint shuffleFrom {T} (i : nat) (state : Z) (deck : list T) : list T * Z :=
  match i with
  | O => (deck, state)
  | S i' =>
      let '(r, state') := rngNext state in
      let j := Z.to_nat (Qfloor (r * inject_Z (Z.of_nat i + 1))) in
      shuffleFrom i' state' (swap i j deck)
  end.

Definition createShuffledDeck (rng : Z) : list Card :=
  (shuffleFrom (length orderedDeck - 1) rng orderedDeck).1.

(** ** Match state *)

Record LogEntry := mkLog {
  entryPlayer : nat;
  entryCard : Card;
  action : string
}.

Record MatchState := mkState {
  seed : JsString;
  deck : list Card;
  trump : Suit;
  leadPlayer : nat;
  hands : list (list Card);
  scores : Z * Z;
  tiePoints : Z;
  punishment : PunishmentQueue;
  log : list LogEntry;
  trumpCard : Card;
  currentTrick : option (list TrickPlay)
}.

(** Field assignments [state.f = v]. *)
Definition setDeck (v : list Card) (st : MatchState) : MatchState :=
  mkState (seed st) v (trump st) (leadPlayer st) (hands st) (scores st)
          (tiePoints st) (punishment st) (log st) (trumpCard st) (currentTrick st).

Definition setLeadPlayer (v : nat) (st : MatchState) : MatchState :=
  mkState (seed st) (deck st) (trump st) v (hands st) (scores st)
          (tiePoints st) (punishment st) (log st) (trumpCard st) (currentTrick st).

Definition setHands (v : list (list Card)) (st : MatchState) : MatchState :=
  mkState (seed st) (deck st) (trump st) (leadPlayer st) v (scores st)
          (tiePoints st) (punishment st) (log st) (trumpCard st) (currentTrick st).

Definition setScores (v : Z * Z) (st : MatchState) : MatchState :=
  mkState (seed st) (deck st) (trump st) (leadPlayer st) (hands st) v
          (tiePoints st) (punishment st) (log st) (trumpCard st) (currentTrick st).

Definition setTiePoints (v : Z) (st : MatchState) : MatchState :=
  mkState (seed st) (deck st) (trump st) (leadPlayer st) (hands st) (scores st)
          v (punishment st) (log st) (trumpCard st) (currentTrick st).

Definition setLog (v : list LogEntry) (st : MatchState) : MatchState :=
  mkState (seed st) (deck st) (trump st) (leadPlayer st) (hands st) (scores st)
          (tiePoints st) (punishment st) v (trumpCard st) (currentTrick st).

Definition setCurrentTrick (v : option (list TrickPlay)) (st : MatchState) : MatchState :=
  mkState (seed st) (deck st) (trump st) (leadPlayer st) (hands st) (scores st)
          (tiePoints st) (punishment st) (log st) (trumpCard st) v.

(** [state.log.push({ player, card, action: 'play' })]. *)
Definition logPlay (p : nat) (c : Card) (st : MatchState) : MatchState :=
  setLog (log st ++ [mkLog p c "play"]) st.

(** [scores[team] += amount]; [team] is a [teamOfPlayer] value, 0 or 1. *)
Definition addScore (team : nat) (amount : Z) (s : Z * Z) : Z * Z :=
  match team with
  | O => (s.1 + amount, s.2)
  | _ => (s.1, s.2 + amount)
  end.

(** The result of running a state-mutating call: it returned [v], or threw
    [e]; either way [st] is the match state as the call left it. *)
Inductive Outcome (V : Type) :=
  | Returned (v : V) (st : MatchState)
  | Threw (e : Error) (st : MatchState).
Arguments Returned {V} v st.
Arguments Threw {V} e st.

Definition andThen {V W} (o : Outcome V) (k : V -> MatchState -> Outcome W)
  : Outcome W :=
  match o with
  | Returned v st => k v st
  | Threw e st => Threw e st
  end.

(** *** initMatch *)

(** [hands[p].push(deck.shift()!)].  On an empty pile [shift()] yields
    undefined; [initMatch] then fails at [trumpCard.suit] and the hands are
    never seen, so nothing is dealt here in that case. *)
Definition dealOne (hd : list (list Card) * list Card) (p : nat)
  : list (list Card) * list Card :=
  match hd.2 with
  | c :: deck' => (alter (.++ [c]) p hd.1, deck')
  | [] => hd
  end.

(** [for (let i = 0; i < 3; i++) for (let p = 0; p < 6; p++) ...]. *)
Definition deal (deck0 : list Card) : list (list Card) * list Card :=
  foldl (fun hd _ => foldl dealOne hd (seq 0 6)) (replicate 6 [], deck0) (seq 0 3).

Definition initMatch (seed0 : JsString) : Error + MatchState :=
  let rng := createRng (stringToSeed seed0) in
  let deck0 := createShuffledDeck rng in
  let dealt := deal deck0 in
  match dealt.2 with
  | [] => inl TypeError
  | trumpCard0 :: rest =>
      inr {| seed := seed0;
             deck := rest ++ [trumpCard0];
             trump := suit trumpCard0;
             leadPlayer := 0;
             hands := dealt.1;
             scores := (0, 0);
             tiePoints := 0;
             punishment := newPunishmentQueue;
             log := [];
             trumpCard := trumpCard0;
             currentTrick := None |}
  end.

(** *** drawAfterTrick *)

(** [while (hand.length < 3 && deck.length > 0) hand.push(deck.shift()!)]. *)
Fixpoint drawWhile (hand pile : list Card) : list Card * list Card :=
  match pile with
  | [] => (hand, pile)
  | c :: pile' =>
      if decide (length hand < 3)%nat then drawWhile (hand ++ [c]) pile'
      else (hand, pile)
  end.

Definition drawFor (p : nat) (st : MatchState) : Outcome unit :=
  match hands st !! p with
  | None => Threw TypeError st
  | Some hand =>
      let drawn := drawWhile hand (deck st) in
      Returned tt (setDeck drawn.2 (setHands (<[p := drawn.1]> (hands st)) st))
  end.

Fixpoint drawOffsets (offsets : list nat) (winner0 : nat) (st : MatchState)
  : Outcome unit :=
  match offsets with
  | [] => Returned tt st
  | offset :: more =>
      andThen (drawFor ((winner0 + offset) mod 6)%nat st)
              (fun _ => drawOffsets more winner0)
  end.

Definition drawAfterTrick (st : MatchState) (winner0 : nat) : Outcome unit :=
  drawOffsets (seq 0 6) winner0 st.

(** *** Settling a resolved trick

    [playHand] and [playCard] carry the same block after [resolveTrick]:
    tie points, score, lead and draw. *)
Definition settleTrick (plays : list TrickPlay) (st : MatchState) : Outcome unit :=
  match resolveTrick plays (trump st) with
  | inl e => Threw e st
  | inr result =>
      if tie result then
        Returned tt (setTiePoints (tiePoints st + points result) st)
      else
        match winner result with
        | Some w =>
            let team := teamOfPlayer w in
            let st1 := setScores
                         (addScore team (points result + tiePoints st) (scores st)) st in
            let st2 := setTiePoints 0 st1 in
            let st3 := setLeadPlayer (nextLead (leadPlayer st2) (Some w)) st2 in
            if decide (0 < length (deck st3))%nat then drawAfterTrick st3 w
            else Returned tt st3
        | None => Returned tt st
        end
  end.

(** *** playHand *)

(** [state.hands.reduce((acc, h) => acc + h.length, 0)]. *)
Definition cardsRemaining (st : MatchState) : nat :=
  foldl (fun acc h => (acc + length h)%nat) 0%nat (hands st).

(** One round of the inner [for] loop: the player at offset [i] from the
    lead plays the first card of their hand, if any. *)
Definition playFirstCard (i : nat) (plays : list TrickPlay) (st : MatchState)
  : Outcome (list TrickPlay) :=
  let p := ((leadPlayer st + i) mod 6)%nat in
  match hands st !! p with
  | None => Threw TypeError st
  | Some [] => Returned plays st
  | Some (c :: hand') =>
      Returned (plays ++ [mkPlay p c])
               (logPlay p c (setHands (<[p := hand']> (hands st)) st))
  end.

Fixpoint collectPlays (offsets : list nat) (plays : list TrickPlay)
    (st : MatchState) : Outcome (list TrickPlay) :=
  match offsets with
  | [] => Returned plays st
  | i :: more =>
      andThen (playFirstCard i plays st) (collectPlays more)
  end.

(** The body of the [while] loop. *)
Definition playHandTrick (st : MatchState) : Outcome unit :=
  andThen (collectPlays (seq 0 6) [] st) settleTrick.

(** The [while (cardsRemaining > 0)] loop, bounded by [fuel] iterations;
    [None] means the bound was reached before the loop ended. *)
Fixpoint playHand (fuel : nat) (st : MatchState) : option (Outcome MatchState) :=
  if decide (0 < cardsRemaining st)%nat then
    match fuel with
    | O => None
    | S fuel' =>
        match playHandTrick st with
        | Returned _ st' => playHand fuel' st'
        | Threw e st' => Some (Threw e st')
        end
    end
  else Some (Returned st st).

(** *** legalMoves and playCard *)

Definition turnPlayer (st : MatchState) : nat :=
  ((leadPlayer st + length (default [] (currentTrick st))) mod 6)%nat.

Definition legalMoves (st : MatchState) (p : nat) : Error + list Card :=
  if decide (p ≠ turnPlayer st) then inr []
  else match hands st !! p with
       | Some hand => inr hand
       | None => inl TypeError
       end.

Definition sameCard (c1 c2 : Card) : bool :=
  bool_decide (rank c1 = rank c2) && bool_decide (suit c1 = suit c2).

Definition playCard (st : MatchState) (p : nat) (c : Card) : Outcome unit :=
  let trick := default [] (currentTrick st) in
  if decide (p ≠ turnPlayer st) then Threw (NotYourTurn p) st
  else
    match hands st !! p with
    | None => Threw TypeError st
    | Some hand =>
        match findIndex (fun c' => sameCard c' c) hand with
        | None => Threw MissingCard st
        | Some idx =>
            let st1 := setHands (<[p := splice1 idx hand]> (hands st)) st in
            let plays := trick ++ [mkPlay p c] in
            let st2 := setCurrentTrick (Some plays) st1 in
            let st3 := logPlay p c st2 in
            if decide (length plays = 6)%nat then
              settleTrick plays (setCurrentTrick (Some []) st3)
            else Returned tt st3
        end
    end.

(** ** Specification-level notions used to state the properties *)

(** The queue after [n] calls of [submit()] on a fresh object. *)
Definition submits (n : nat) : PunishmentQueue := Nat.iter n submit newPunishmentQueue.

(** Total point value of a list of cards. *)
Definition cardPoints (cards : list Card) : Z :=
  foldr (fun c acc => POINTS (rank c) + acc) 0 cards.

(** Weight of a card as the rules word it: 200 + strength for a trump,
    100 + strength for a card of the led suit, the bare strength otherwise. *)
Definition ruleWeight (trump led : Suit) (c : Card) : Z :=
  (if decide (suit c = trump) then 200
   else if decide (suit c = led) then 100 else 0)
  + rankStrength RANK_ORDER (rank c).

(** The play at position [i] attains the maximal weight [w] of the trick. *)
Definition attainsMax (w : Card -> Z) (plays : list TrickPlay) (i : nat) : Prop :=
  exists p, plays !! i = Some p /\
            forall q, q ∈ plays -> w (card q) <= w (card p).

(** The hand without the first copy of [c]. *)
Fixpoint removeFirst (c : Card) (hand : list Card) : list Card :=
  match hand with
  | [] => []
  | c' :: hand' => if decide (c' = c) then hand' else c' :: removeFirst c hand'
  end.

(** Entry of the score vector that belongs to [team]. *)
Definition teamScore (team : nat) (s : Z * Z) : Z :=
  match team with
  | O => s.1
  | _ => s.2
  end.

(** Draw replenishment as the rules word it: the player takes cards from
    the front of the pile until the hand holds 3 cards or the pile is empty. *)
Definition topUp (hd : list (list Card) * list Card) (p : nat)
  : list (list Card) * list Card :=
  match hd.1 !! p with
  | Some hand =>
      let n := ((3 - length hand) `min` length hd.2)%nat in
      (<[p := hand ++ take n hd.2]> hd.1, drop n hd.2)
  | None => hd
  end.

(** ... in the order winner, winner + 1, ..., winner + 5, modulo 6. *)
Definition drawOrder (w : nat) : list nat :=
  (fun offset => (w + offset) mod 6)%nat <$> seq 0 6.

Definition replenish (w : nat) (hd : list (list Card) * list Card)
  : list (list Card) * list Card :=
  foldl topUp hd (drawOrder w).

(** Cards still in circulation: in the hands and in the draw pile. *)
Definition totalCards (st : MatchState) : nat :=
  (length (concat (hands st)) + length (deck st))%nat.

(** A state late in a trick, used to exercise the theorems: five plays are
    on the table and player 5 is to act. *)
Definition sampleState : MatchState :=
  {| seed := codeUnits "demo-0";
     deck := [mkCard hearts RA; mkCard hearts RJ; mkCard clubs RJ;
              mkCard clubs RA; mkCard spades RA; mkCard spades R4;
              mkCard clubs RQ; mkCard spades R5];
     trump := spades;
     leadPlayer := 0;
     hands := [[mkCard hearts R4; mkCard spades RK];
               [mkCard clubs R4; mkCard hearts R5];
               [mkCard clubs R5; mkCard diamonds R5];
               [mkCard diamonds RA; mkCard hearts RQ];
               [mkCard clubs R6; mkCard spades R3];
               [mkCard hearts RK; mkCard diamonds R7; mkCard hearts R7]];
     scores := (0, 0);
     tiePoints := 0;
     punishment := newPunishmentQueue;
     log := [];
     trumpCard := mkCard spades R5;
     currentTrick := Some [mkPlay 0 (mkCard clubs R3); mkPlay 1 (mkCard spades R7);
                           mkPlay 2 (mkCard hearts R6); mkPlay 3 (mkCard clubs RK);
                           mkPlay 4 (mkCard clubs R7)] |}.

#[global] Instance Card_inhabited : Inhabited Card :=
  populate (mkCard spades RA).

(** What a trick leaves alone while the cards are being played: pile,
    trump, lead, scores, tie points and the number of hands. *)
Definition tableKept (st st' : MatchState) : Prop :=
  deck st' = deck st /\ trump st' = trump st /\ leadPlayer st' = leadPlayer st /\
  scores st' = scores st /\ tiePoints st' = tiePoints st /\
  length (hands st') = length (hands st).

(** Points held by the two teams or waiting as tie points. *)
Definition pointsAwarded (st : MatchState) : Z :=
  (scores st).1 + (scores st).2 + tiePoints st.

(** The invariant of a hand played from a freshly dealt deck: six hands, no
    card twice among hands and pile, the deck's 120 points split between
    the points already awarded and the cards still in circulation, and,
    while the pile lasts, every hand at three cards or more at the start of a
    trick. *)
Definition handInvariant (st : MatchState) : Prop :=
  length (hands st) = 6%nat /\
  NoDup (concat (hands st) ++ deck st) /\
  pointsAwarded st + cardPoints (concat (hands st) ++ deck st) = 120 /\
  (deck st = [] \/ Forall (fun h => (3 <= length h)%nat) (hands st)).

(** ** The two-trick demo (DemoState, initDemoMatch, playDemoTrick, runDemo) *)

Module Demo.

Record DemoState := mkDemo {
  seed : JsString;
  deck : list Card;
  trump : Suit;
  leadPlayer : nat;
  hands : list (list Card);
  scores : Z * Z;
  tiePoints : Z;
  punishment : PunishmentQueue;
  log : list LogEntry
}.

(** The result of a call on a demo state: returned, or threw [e]; [st] is
    the state as the call left it. *)
Inductive Outcome :=
  | Returned (st : DemoState)
  | Threw (e : Error) (st : DemoState).

Definition setLeadPlayer (v : nat) (st : DemoState) : DemoState :=
  mkDemo (seed st) (deck st) (trump st) v (hands st) (scores st)
         (tiePoints st) (punishment st) (log st).

Definition setHands (v : list (list Card)) (st : DemoState) : DemoState :=
  mkDemo (seed st) (deck st) (trump st) (leadPlayer st) v (scores st)
         (tiePoints st) (punishment st) (log st).

Definition setScores (v : Z * Z) (st : DemoState) : DemoState :=
  mkDemo (seed st) (deck st) (trump st) (leadPlayer st) (hands st) v
         (tiePoints st) (punishment st) (log st).

Definition setTiePoints (v : Z) (st : DemoState) : DemoState :=
  mkDemo (seed st) (deck st) (trump st) (leadPlayer st) (hands st) (scores st)
         v (punishment st) (log st).

Definition setPunishment (v : PunishmentQueue) (st : DemoState) : DemoState :=
  mkDemo (seed st) (deck st) (trump st) (leadPlayer st) (hands st) (scores st)
         (tiePoints st) v (log st).

Definition setLog (v : list LogEntry) (st : DemoState) : DemoState :=
  mkDemo (seed st) (deck st) (trump st) (leadPlayer st) (hands st) (scores st)
         (tiePoints st) (punishment st) v.

(** [initDemoMatch]: as [initMatch], but the trump card stays on top of the
    pile. *)
Definition initDemoMatch (seed0 : JsString) : Error + DemoState :=
  let rng := createRng (stringToSeed seed0) in
  let deck0 := createShuffledDeck rng in
  let dealt := deal deck0 in
  match dealt.2 with
  | [] => inl TypeError
  | trumpCard0 :: _ =>
      inr {| seed := seed0;
             deck := dealt.2;
             trump := suit trumpCard0;
             leadPlayer := 0;
             hands := dealt.1;
             scores := (0, 0);
             tiePoints := 0;
             punishment := newPunishmentQueue;
             log := [] |}
  end.

(** One round of the [plays.forEach] of [playDemoTrick]: find the card in
    the player's hand, remove it, log the play. *)
Definition takeCard (st : DemoState) (pl : TrickPlay) : Outcome :=
  match hands st !! player pl with
  | None => Threw TypeError st
  | Some hand =>
      match findIndex (fun c => sameCard c (card pl)) hand with
      | None => Threw MissingCard st
      | Some idx =>
          Returned
            (setLog (log st ++ [mkLog (player pl) (card pl) "play"])
               (setHands (<[player pl := splice1 idx hand]> (hands st)) st))
      end
  end.

Fixpoint takeCards (plays : list TrickPlay) (st : DemoState) : Outcome :=
  match plays with
  | [] => Returned st
  | pl :: more =>
      match takeCard st pl with
      | Returned st' => takeCards more st'
      | Threw e st' => Threw e st'
      end
  end.

Definition playDemoTrick (st : DemoState) (plays : list TrickPlay) : Outcome :=
  let trump0 := trump st in
  match takeCards plays st with
  | Threw e st' => Threw e st'
  | Returned st1 =>
      match resolveTrick plays trump0 with
      | inl e => Threw e st1
      | inr result =>
          if tie result then
            Returned (setTiePoints (tiePoints st1 + points result) st1)
          else
            match winner result with
            | Some w =>
                let team := teamOfPlayer w in
                let st2 := setScores
                             (addScore team (points result + tiePoints st1)
                                (scores st1)) st1 in
                let st3 := setTiePoints 0 st2 in
                let st4 := setLeadPlayer (nextLead (leadPlayer st3) (Some w)) st3 in
                if bool_decide (0 < points result) && bool_decide (0 < tiePoints st4)
                then Returned (setPunishment (submit (punishment st4)) st4)
                else Returned st4
            | None => Returned st1
            end
      end
  end.

(** The plays built by [runDemo]: for each seat 0..5 in seat order, that
    player's first card.  The first trick reads [hands[p][0]] unguarded; on
    an empty hand the play would carry no card and [playDemoTrick] would
    reject it as a missing card.  The second trick skips empty hands. *)
Fixpoint firstCards (guarded : bool) (seats : list nat) (hs : list (list Card))
  : Error + list TrickPlay :=
  match seats with
  | [] => inr []
  | p :: more =>
      match hs !! p with
      | None => inl TypeError
      | Some [] =>
          if guarded then firstCards guarded more hs else inl MissingCard
      | Some (c :: _) =>
          match firstCards guarded more hs with
          | inr plays => inr (mkPlay p c :: plays)
          | inl e => inl e
          end
      end
  end.

(** [runDemo(seed)] up to, and without, the final [console.log]: the state
    after the two tricks, or the error that escapes. *)
Definition runDemo (seed0 : JsString) : Error + DemoState :=
  match initDemoMatch seed0 with
  | inl e => inl e
  | inr st =>
      match firstCards false (seq 0 6) (hands st) with
      | inl e => inl e
      | inr plays1 =>
          match playDemoTrick st plays1 with
          | Threw e _ => inl e
          | Returned st1 =>
              match firstCards true (seq 0 6) (hands st1) with
              | inl e => inl e
              | inr plays2 =>
                  match playDemoTrick st1 plays2 with
                  | Threw e _ => inl e
                  | Returned st2 => inr st2
                  end
              end
          end
      end
  end.

End Demo.

(** ** Further notions used to state properties of the match state *)

(** The cards of the play log, in the order they were played. *)
Definition played (st : MatchState) : list Card := entryCard <$> log st.

(** The cards lying in the trick in progress. *)
Definition tableCards (st : MatchState) : list Card :=
  card <$> default [] (currentTrick st).

(** The log entry written for a play. *)
Definition logEntryOf (pl : TrickPlay) : LogEntry :=
  mkLog (player pl) (card pl) "play".

(** The state a call left behind, whether it returned or threw. *)
Definition outcomeState {V} (o : Outcome V) : MatchState :=
  match o with
  | Returned _ st => st
  | Threw _ st => st
  end.

(** The fields fixed when the hand is set up: seed, trump suit, trump card
    and punishment queue. *)
Definition sameSetup (st st' : MatchState) : Prop :=
  seed st' = seed st /\ trump st' = trump st /\
  trumpCard st' = trumpCard st /\ punishment st' = punishment st.

(** What settling a trick and drawing leave alone, whatever the outcome:
    the setup, the log, the trick in progress and the number of hands. *)
Definition recordKept (st st' : MatchState) : Prop :=
  sameSetup st st' /\ log st' = log st /\
  currentTrick st' = currentTrick st /\
  length (hands st') = length (hands st).

(** What a whole [playHand] run leaves alone, whatever the outcome. *)
Definition handKept (st st' : MatchState) : Prop :=
  sameSetup st st' /\ currentTrick st' = currentTrick st /\
  length (hands st') = length (hands st).

(** A well-formed log entry of a six-seat table. *)
Definition goodEntry (e : LogEntry) : Prop :=
  action e = "play"%string /\ (entryPlayer e < 6)%nat.

(** The invariant of a hand played by [playHand] from a fresh deal, with
    the log: every card of the deck is in the log, in a hand or in the
    pile, no tie points are pending and no score is negative. *)
Definition dealtHandInvariant (st : MatchState) : Prop :=
  handInvariant st /\
  played st ++ concat (hands st) ++ deck st ≡ₚ orderedDeck /\
  tiePoints st = 0 /\ 0 <= (scores st).1 /\ 0 <= (scores st).2 /\
  Forall goodEntry (log st).

(** The demo state a call left behind, whether it returned or threw. *)
Definition demoOutcomeState (o : Demo.Outcome) : Demo.DemoState :=
  match o with
  | Demo.Returned st => st
  | Demo.Threw _ st => st
  end.

(** Interactive play with the placeholder strategy of [playHand]: the
    player to act plays the first of their legal moves (nothing happens if
    there is none). *)
Definition playFirstLegal (st : MatchState) : Outcome unit :=
  let p := turnPlayer st in
  match legalMoves st p with
  | inl e => Threw e st
  | inr [] => Returned tt st
  | inr (c :: _) => playCard st p c
  end.

Fixpoint playFirstLegals (n : nat) (st : MatchState) : Outcome unit :=
  match n with
  | O => Returned tt st
  | S n' => andThen (playFirstLegal st) (fun _ => playFirstLegals n')
  end.

(** The same outcome, with [f] applied to the state it carries. *)
Definition mapState {V} (f : MatchState -> MatchState) (o : Outcome V) : Outcome V :=
  match o with
  | Returned v st => Returned v (f st)
  | Threw e st => Threw e (f st)
  end.

(** * Properties *)

(** A list of 36 cards, spelled out. *)
Ltac spell_out d H :=
  do 36 (destruct d as [|? d]; [simpl in H; discriminate H|]);
  destruct d; [clear H|simpl in H; discriminate H].

(** ** Rank order and card weights *)

Lemma rankStrength_RANK_ORDER r :
  rankStrength RANK_ORDER r =
  match r with
  | RA => 8 | R7 => 7 | RK => 6 | RQ => 5 | RJ => 4
  | R6 => 3 | R5 => 2 | R4 => 1 | R3 => 0
  end.
Proof. by destruct r. Qed.

Lemma rankStrength_bounds r : 0 <= rankStrength RANK_ORDER r <= 8.
Proof. rewrite rankStrength_RANK_ORDER. destruct r; lia. Qed.

Lemma rankStrength_inj r1 r2 :
  rankStrength RANK_ORDER r1 = rankStrength RANK_ORDER r2 -> r1 = r2.
Proof. rewrite !rankStrength_RANK_ORDER. destruct r1, r2; (done || lia). Qed.

(** What the earlier copy of the table gives: there the 7 sits below J. *)
Remark rankStrength_legacy_seven :
  rankStrength RANK_ORDER_legacy R7 = 4 /\
  rankStrength RANK_ORDER_legacy RJ = 5.
Proof. done. Qed.

(** C1.  In the strength order used to compare cards, 7 comes second: only
    the ace is stronger, and for every suit, trump and led suit a 7 weighs
    strictly more than the K, the Q and the J of the same suit.  In a trick
    of four same-suit plays J, K, 7, 5 the player of the 7 wins. *)
Theorem seven_is_second_strongest :
  RANK_ORDER !! 1%nat = Some R7 /\
  (forall r, r = RA \/ rankStrength RANK_ORDER r <= rankStrength RANK_ORDER R7) /\
  (forall s trump led,
     cardWeight (mkCard s RK) trump led < cardWeight (mkCard s R7) trump led /\
     cardWeight (mkCard s RQ) trump led < cardWeight (mkCard s R7) trump led /\
     cardWeight (mkCard s RJ) trump led < cardWeight (mkCard s R7) trump led) /\
  (forall s trump pJ pK p7 p5,
     resolveTrick [mkPlay pJ (mkCard s RJ); mkPlay pK (mkCard s RK);
                   mkPlay p7 (mkCard s R7); mkPlay p5 (mkCard s R5)] trump
     = inr {| winner := Some p7; points := 17; tie := false |}).
Proof.
  split; [done|]. split.
  { intros r. rewrite !rankStrength_RANK_ORDER. destruct r; (by left) || (right; lia). }
  split.
  - intros s trump led. unfold cardWeight; simpl suit; simpl rank.
    rewrite !rankStrength_RANK_ORDER.
    repeat case_decide; lia.
  - intros s trump pJ pK p7 p5.
    destruct s, trump; reflexivity.
Qed.

(** ** Lead policy *)

(** C9.  On a tie the lead stays; when the winner is on the leader's team
    the lead stays with the same player; the lead moves, and then to the
    winner, only when the winner's team differs from the leader's. *)
Theorem nextLead_policy (currentLead w : nat) :
  nextLead currentLead None = currentLead /\
  (teamOfPlayer w = teamOfPlayer currentLead ->
     nextLead currentLead (Some w) = currentLead) /\
  (teamOfPlayer w <> teamOfPlayer currentLead ->
     nextLead currentLead (Some w) = w) /\
  (nextLead currentLead (Some w) <> currentLead ->
     nextLead currentLead (Some w) = w /\
     teamOfPlayer w <> teamOfPlayer currentLead).
Proof.
  unfold nextLead. repeat split; try (case_decide; done).
Qed.

Lemma nextLead_policy_witness :
  nextLead 0 (Some 2%nat) = 0%nat /\ nextLead 0 (Some 1%nat) = 1%nat.
Proof.
  split.
  - apply (nextLead_policy 0 2). reflexivity.
  - apply (nextLead_policy 0 1). vm_compute. discriminate.
Defined.

(** ** Punishment queue *)

Lemma submit_index_in_range pq : (index (submit pq) < length sequence)%nat.
Proof.
  unfold submit. destruct (sequence !! index pq); cbn [index];
    apply Nat.mod_upper_bound; discriminate.
Qed.

(** C2, as stated, fails: the seventh call appends the first "2" and so
    already clears the queue; its length is then 0, not 7. *)
Lemma submit_seventh_call_clears :
  ~ (map (fun n => length (queue (submits n))) [1; 2; 3; 4; 5; 6; 7; 8]%nat
     = [1; 2; 3; 4; 5; 6; 7; 0]%nat).
Proof. vm_compute. discriminate. Qed.

(** C2, amended.  From a fresh queue the visible lengths after calls one to
    six are 1..6; the seventh call (the first "2") and the eighth call (the
    second "2") each leave the queue empty; the ninth call restarts the
    cycle: the cursor is back at the start and the queue holds the single
    label "10". *)
Theorem submit_cycle :
  map (fun n => length (queue (submits n))) [1; 2; 3; 4; 5; 6; 7; 8]%nat
    = [1; 2; 3; 4; 5; 6; 0; 0]%nat /\
  queue (submits 6) = ["10"; "10"; "9"; "9"; "8"; "8"]%string /\
  submits 8 = newPunishmentQueue /\
  queue (submits 9) = ["10"%string].
Proof. by vm_compute. Qed.

(** ** Trick resolver *)

Lemma cardWeight_ruleWeight c trump led :
  cardWeight c trump (Some led) = ruleWeight trump led c.
Proof.
  unfold cardWeight, ruleWeight.
  repeat case_decide; simplify_eq; (done || lia).
Qed.

Lemma maxOf_ge ws : forall w x, x ∈ w :: ws -> x <= maxOf w ws.
Proof.
  unfold maxOf. induction ws as [|y ws IH]; intros w x Hx; simpl.
  - apply list_elem_of_singleton in Hx. lia.
  - apply elem_of_cons in Hx as [->|Hx].
    + etrans; [|apply IH; left]. lia.
    + apply elem_of_cons in Hx as [->|Hx].
      * etrans; [|apply IH; left]. lia.
      * apply IH. by right.
Qed.

Lemma maxOf_elem ws : forall w, maxOf w ws ∈ w :: ws.
Proof.
  unfold maxOf. induction ws as [|y ws IH]; intros w; simpl.
  - left.
  - destruct (Z.max_spec w y) as [[_ ->]|[_ ->]].
    + right. apply IH.
    + specialize (IH w). apply elem_of_cons in IH as [->|IH]; [left|].
      by do 2 right.
Qed.

Lemma elem_of_maxIndicesFrom m ws : forall i j,
  j ∈ maxIndicesFrom i m ws <-> exists k, j = (i + k)%nat /\ ws !! k = Some m.
Proof.
  induction ws as [|w ws IH]; intros i j; simpl.
  - split; [by intros ?%elem_of_nil|by intros (k & _ & ?)].
  - case_decide as Hw; [rewrite elem_of_cons|]; rewrite IH; split.
    + intros [->|(k & -> & Hk)].
      * exists 0%nat. split; [lia|by subst].
      * exists (S k). split; [lia|done].
    + intros ([|k] & -> & Hk).
      * left; lia.
      * right. exists k. split; [lia|done].
    + intros (k & -> & Hk). exists (S k). split; [lia|done].
    + intros ([|k] & -> & Hk); simplify_eq/=.
      exists k. split; [lia|done].
Qed.

Lemma NoDup_maxIndicesFrom m ws : forall i, NoDup (maxIndicesFrom i m ws).
Proof.
  induction ws as [|w ws IH]; intros i; simpl; [constructor|].
  case_decide; [|apply IH].
  constructor; [|apply IH].
  rewrite elem_of_maxIndicesFrom. intros (k & ? & _). lia.
Qed.

Lemma trickPoints_cardPoints plays :
  trickPoints plays = cardPoints (card <$> plays).
Proof.
  unfold trickPoints.
  assert (forall acc, fold_left (fun acc p => acc + POINTS (rank (card p))) plays acc
                      = acc + cardPoints (card <$> plays)) as H; [|by rewrite H].
  induction plays as [|p plays IH]; intros acc; [simpl; lia|].
  rewrite fmap_cons. simpl. rewrite IH. lia.
Qed.

(** Positions of the trick that attain the maximum are exactly the entries
    of the [indices] array of [resolveTrick]. *)
Lemma attainsMax_indices p0 rest trump i :
  let plays := p0 :: rest in
  let w := fun c => cardWeight c trump (Some (suit (card p0))) in
  attainsMax w plays i <->
  i ∈ maxIndicesFrom 0 (maxOf (w (card p0)) (map (fun p => w (card p)) rest))
                     (map (fun p => w (card p)) plays).
Proof.
  intros plays w. set (m := maxOf _ _).
  assert (Hge : forall q, q ∈ plays -> w (card q) <= m).
  { intros q Hq. apply (maxOf_ge _ _ (w (card q))).
    change (w (card p0) :: _) with (map (fun p => w (card p)) plays).
    apply list_elem_of_fmap. by exists q. }
  assert (Hin : exists q, q ∈ plays /\ w (card q) = m).
  { pose proof (maxOf_elem (map (fun p => w (card p)) rest) (w (card p0))) as H.
    change (w (card p0) :: _) with (map (fun p => w (card p)) plays) in H.
    apply list_elem_of_fmap in H as (q & ? & ?). by exists q. }
  rewrite elem_of_maxIndicesFrom. split.
  - intros (p & Hp & Hmax). exists i. split; [done|].
    change (map ?f ?l) with (f <$> l). rewrite list_lookup_fmap, Hp. simpl. f_equal.
    destruct Hin as (q & Hq & <-).
    apply Z.le_antisymm; [apply Hge; by eapply list_elem_of_lookup_2|by apply Hmax].
  - intros (k & -> & Hk). simpl.
    change (map ?f ?l) with (f <$> l) in Hk.
    rewrite list_lookup_fmap in Hk.
    destruct (plays !! k) as [p|] eqn:Hp; [|done].
    injection Hk as Hk.
    exists p. split; [done|]. intros q Hq. rewrite Hk. by apply Hge.
Qed.

Lemma attainsMax_ext w1 w2 plays i :
  (forall c, w1 c = w2 c) -> attainsMax w1 plays i <-> attainsMax w2 plays i.
Proof.
  intros Hw. unfold attainsMax.
  split; intros (p & Hp & Hmax); exists p; (split; [done|]); intros q Hq.
  - rewrite <- !Hw. by apply Hmax.
  - rewrite !Hw. by apply Hmax.
Qed.

Lemma maxIndices_nonempty p0 rest trump :
  let w := fun c => cardWeight c trump (Some (suit (card p0))) in
  maxIndicesFrom 0 (maxOf (w (card p0)) (map (fun p => w (card p)) rest))
                 (map (fun p => w (card p)) (p0 :: rest)) <> [].
Proof.
  intros w Hnil.
  pose proof (maxOf_elem (map (fun p => w (card p)) rest) (w (card p0))) as H.
  change (w (card p0) :: _) with (map (fun p => w (card p)) (p0 :: rest)) in H.
  apply list_elem_of_lookup in H as (k & Hk).
  assert (k ∈ @nil nat) as ?%elem_of_nil; [|done].
  rewrite <- Hnil. apply elem_of_maxIndicesFrom. exists k. by split.
Qed.

(** C4.  [resolveTrick] fails exactly on the empty list.  On a non-empty
    list it returns the sum of the point values of all played cards, and,
    with cards weighted by the rules (200 + strength for trump, 100 +
    strength for the suit of the first play, bare strength otherwise): some
    play attains the maximal weight; if exactly one does, its player wins
    and [tie] is false; if more than one does, [winner] is null and [tie]
    is true. *)
Theorem resolveTrick_spec (plays : list TrickPlay) (trump : Suit) :
  ((exists e, resolveTrick plays trump = inl e) <-> plays = []) /\
  (forall p0 rest, plays = p0 :: rest ->
     let w := ruleWeight trump (suit (card p0)) in
     exists r, resolveTrick plays trump = inr r /\
       points r = cardPoints (card <$> plays) /\
       (exists i, attainsMax w plays i) /\
       (forall i p, plays !! i = Some p -> attainsMax w plays i ->
          (forall j, attainsMax w plays j -> j = i) ->
          winner r = Some (player p) /\ tie r = false) /\
       (forall i j, i <> j -> attainsMax w plays i -> attainsMax w plays j ->
          winner r = None /\ tie r = true)).
Proof.
  assert (Hmain : forall p0 rest, plays = p0 :: rest ->
     let w := ruleWeight trump (suit (card p0)) in
     exists r, resolveTrick plays trump = inr r /\
       points r = cardPoints (card <$> plays) /\
       (exists i, attainsMax w plays i) /\
       (forall i p, plays !! i = Some p -> attainsMax w plays i ->
          (forall j, attainsMax w plays j -> j = i) ->
          winner r = Some (player p) /\ tie r = false) /\
       (forall i j, i <> j -> attainsMax w plays i -> attainsMax w plays j ->
          winner r = None /\ tie r = true)).
  { intros p0 rest -> w.
    assert (Hidx : forall i, attainsMax w (p0 :: rest) i <->
              i ∈ maxIndicesFrom 0
                    (maxOf (cardWeight (card p0) trump (Some (suit (card p0))))
                       (map (fun p => cardWeight (card p) trump (Some (suit (card p0)))) rest))
                    (map (fun p => cardWeight (card p) trump (Some (suit (card p0))))
                       (p0 :: rest))).
    { intros i. rewrite <- (attainsMax_indices p0 rest trump i).
      apply attainsMax_ext. intros c. symmetry. apply cardWeight_ruleWeight. }
    pose proof (maxIndices_nonempty p0 rest trump) as Hne.
    pose proof (NoDup_maxIndicesFrom
                  (maxOf (cardWeight (card p0) trump (Some (suit (card p0))))
                     (map (fun p => cardWeight (card p) trump (Some (suit (card p0)))) rest))
                  (map (fun p => cardWeight (card p) trump (Some (suit (card p0))))
                     (p0 :: rest)) 0) as Hnd.
    unfold resolveTrick. cbv zeta in *.
    set (indices := maxIndicesFrom 0 _ _) in *.
    clearbody indices.
    destruct indices as [|i0 [|i1 more]]; [done| |].
    - (* a single position attains the maximum *)
      assert (Hi0 : attainsMax w (p0 :: rest) i0) by (apply Hidx; left).
      destruct Hi0 as (p & Hp & Hmax).
      case_decide as Hlen; [simpl in Hlen; lia|].
      change ([i0] !! 0%nat) with (Some i0). simpl mbind. rewrite Hp.
      eexists. split; [done|]. simpl.
      split; [apply trickPoints_cardPoints|].
      split; [exists i0, p; done|]. split.
      + intros i q Hq Hi _. apply Hidx, list_elem_of_singleton in Hi as ->.
        by simplify_eq.
      + intros i j Hij Hi%Hidx%list_elem_of_singleton Hj%Hidx%list_elem_of_singleton.
        congruence.
    - (* at least two positions attain it *)
      case_decide as Hlen; [|simpl in Hlen; lia].
      eexists. split; [done|]. simpl.
      split; [apply trickPoints_cardPoints|].
      split; [exists i0; apply Hidx; left|]. split; [|done].
      intros i q Hq Hi Huniq.
      assert (i0 = i) by (apply Huniq, Hidx; left).
      assert (i1 = i) by (apply Huniq, Hidx; right; left).
      subst. apply NoDup_cons in Hnd as [Hnd _]. exfalso. apply Hnd. left. }
  split; [|done].
  split.
  - intros [e He]. destruct plays as [|p0 rest]; [done|].
    destruct (Hmain p0 rest eq_refl) as (r & Hr & _). congruence.
  - intros ->. by exists NoPlays.
Qed.
Lemma resolveTrick_spec_witness :
  exists r,
    resolveTrick [mkPlay 0 (mkCard hearts RA); mkPlay 1 (mkCard hearts RA);
                  mkPlay 2 (mkCard hearts RK)] clubs = inr r /\
    points r = 26 /\ winner r = None /\ tie r = true.
Proof.
  destruct (proj2 (resolveTrick_spec
                     [mkPlay 0 (mkCard hearts RA); mkPlay 1 (mkCard hearts RA);
                      mkPlay 2 (mkCard hearts RK)] clubs)
              (mkPlay 0 (mkCard hearts RA))
              [mkPlay 1 (mkCard hearts RA); mkPlay 2 (mkCard hearts RK)] eq_refl)
    as (r & Hr & Hpts & _ & _ & Htie).
  exists r. split; [exact Hr|]. split; [exact Hpts|].
  apply (Htie 0%nat 1%nat).
  - discriminate.
  - eexists. split; [reflexivity|].
    intros q Hq. repeat (apply elem_of_cons in Hq as [->|Hq]; [vm_compute; discriminate|]).
    by apply elem_of_nil in Hq.
  - eexists. split; [reflexivity|].
    intros q Hq. repeat (apply elem_of_cons in Hq as [->|Hq]; [vm_compute; discriminate|]).
    by apply elem_of_nil in Hq.
Defined.

(** ** playCard: rejected calls *)

Lemma sameCard_true c1 c2 : sameCard c1 c2 = true <-> c1 = c2.
Proof.
  unfold sameCard. rewrite andb_true_iff, !bool_decide_eq_true.
  destruct c1, c2; simpl. split; [by intros [-> ->]|by intros [= -> ->]].
Qed.

Lemma findIndex_None {T} (f : T -> bool) l :
  findIndex f l = None <-> forall x, x ∈ l -> f x = false.
Proof.
  induction l as [|y l IH]; simpl.
  - split; [by intros _ x ?%elem_of_nil|done].
  - destruct (f y) eqn:Hy.
    + split; [done|]. intros H. rewrite H in Hy; [done|left].
    + rewrite fmap_None, IH. split.
      * intros H x [->|?]%elem_of_cons; auto.
      * intros H x Hx. apply H. by right.
Qed.

Lemma findIndex_missing c hand :
  c ∉ hand -> findIndex (fun c' => sameCard c' c) hand = None.
Proof.
  intros Hc. apply findIndex_None. intros x Hx.
  destruct (sameCard x c) eqn:Hs; [|done].
  apply sameCard_true in Hs as ->. done.
Qed.

(** C6.  [playCard] throws when the player is not the turn-holder
    [(leadPlayer + current trick length) mod 6], and throws when the card is
    not in that player's hand; in both cases the state the call leaves
    behind is the state it was given: hands, log, trick in progress, scores,
    tie points and lead are all untouched. *)
Theorem playCard_rejected_unmodified (st : MatchState) (p : nat) (c : Card) :
  turnPlayer st
    = ((leadPlayer st + length (default [] (currentTrick st))) mod 6)%nat /\
  (p <> turnPlayer st -> playCard st p c = Threw (NotYourTurn p) st) /\
  (forall hand, p = turnPlayer st -> hands st !! p = Some hand -> c ∉ hand ->
     playCard st p c = Threw MissingCard st).
Proof.
  split; [done|]. split.
  - intros Hp. unfold playCard. by rewrite decide_True.
  - intros hand Hp Hhand Hc. unfold playCard.
    rewrite decide_False by (by intros ?).
    by rewrite Hhand, findIndex_missing.
Qed.

Lemma playCard_rejected_unmodified_witness :
  playCard sampleState 2 (mkCard clubs R5) = Threw (NotYourTurn 2) sampleState /\
  playCard sampleState 5 (mkCard clubs R5) = Threw MissingCard sampleState.
Proof.
  split.
  - apply (playCard_rejected_unmodified sampleState 2 (mkCard clubs R5)).
    vm_compute. discriminate.
  - apply (proj2 (proj2 (playCard_rejected_unmodified sampleState 5 (mkCard clubs R5)))
             [mkCard hearts RK; mkCard diamonds R7; mkCard hearts R7]).
    + reflexivity.
    + reflexivity.
    + intros H. repeat (apply elem_of_cons in H as [H|H]; [discriminate H|]).
      by apply elem_of_nil in H.
Defined.

(** ** Draw replenishment *)

Lemma drawWhile_topUp pile : forall hand,
  drawWhile hand pile =
  let n := ((3 - length hand) `min` length pile)%nat in
  (hand ++ take n pile, drop n pile).
Proof.
  induction pile as [|c pile IH]; intros hand; simpl.
  - rewrite Nat.min_0_r. simpl. by rewrite app_nil_r.
  - case_decide as Hlen.
    + rewrite IH. simpl. rewrite length_app. simpl.
      replace ((3 - length hand) `min` S (length pile))%nat
        with (S ((3 - (length hand + 1)) `min` length pile)) by lia.
      simpl. by rewrite <- app_assoc.
    + replace (3 - length hand)%nat with 0%nat by lia. simpl.
      by rewrite app_nil_r.
Qed.

Lemma length_topUp_hands hd p : length (topUp hd p).1 = length hd.1.
Proof.
  unfold topUp. destruct (hd.1 !! p); simpl; [|done]. by rewrite length_insert.
Qed.

Lemma length_foldl_topUp ps : forall hd, length (foldl topUp hd ps).1 = length hd.1.
Proof.
  induction ps as [|p ps IH]; intros hd; simpl; [done|].
  by rewrite IH, length_topUp_hands.
Qed.

Lemma drawFor_topUp p st :
  (p < length (hands st))%nat ->
  drawFor p st =
  let hd := topUp (hands st, deck st) p in
  Returned tt (setDeck hd.2 (setHands hd.1 st)).
Proof.
  intros Hp. unfold drawFor, topUp. simpl.
  destruct (lookup_lt_is_Some_2 _ _ Hp) as [hand Hhand]. rewrite Hhand.
  by rewrite drawWhile_topUp.
Qed.

Lemma drawOffsets_topUp w offsets : forall st,
  length (hands st) = 6%nat ->
  drawOffsets offsets w st =
  let hd := foldl topUp (hands st, deck st)
                  ((fun offset => (w + offset) mod 6)%nat <$> offsets) in
  Returned tt (setDeck hd.2 (setHands hd.1 st)).
Proof.
  induction offsets as [|o offsets IH]; intros st Hlen.
  - by destruct st.
  - cbn [drawOffsets]. rewrite drawFor_topUp.
    2:{ rewrite Hlen. apply Nat.mod_upper_bound. lia. }
    cbv zeta. cbn [andThen]. rewrite IH.
    2:{ simpl. by rewrite length_topUp_hands. }
    rewrite fmap_cons. cbn [foldl]. cbv zeta.
    destruct (topUp (hands st, deck st) ((w + o) mod 6)) as [h1 d1]. reflexivity.
Qed.

Lemma drawAfterTrick_replenish st w :
  length (hands st) = 6%nat ->
  drawAfterTrick st w =
  let hd := replenish w (hands st, deck st) in
  Returned tt (setDeck hd.2 (setHands hd.1 st)).
Proof. intros Hlen. unfold drawAfterTrick. by rewrite drawOffsets_topUp. Qed.

(** C8.  After a won trick the players draw in the order winner,
    winner + 1, ..., winner + 5 (mod 6); each takes cards from the front of
    the pile until the hand holds 3 cards or the pile is empty, and only
    then does the next player draw.  With winner 3, every hand two cards
    after the six-card trick and at least six cards in the pile, the first
    card of the pile goes to player 3, the next ones to players 4, 5, 0, 1
    and 2 in that order, and every hand is back at 3 cards. *)
Theorem drawAfterTrick_order (st : MatchState) (w : nat) :
  length (hands st) = 6%nat ->
  drawOrder w = [(w + 0) mod 6; (w + 1) mod 6; (w + 2) mod 6;
                 (w + 3) mod 6; (w + 4) mod 6; (w + 5) mod 6]%nat /\
  drawAfterTrick st w =
    Returned tt (setDeck (replenish w (hands st, deck st)).2
                   (setHands (replenish w (hands st, deck st)).1 st)) /\
  (forall h0 h1 h2 h3 h4 h5 c3 c4 c5 c0 c1 c2 rest,
     w = 3%nat ->
     hands st = [h0; h1; h2; h3; h4; h5] ->
     Forall (fun h => length h = 2%nat) (hands st) ->
     deck st = c3 :: c4 :: c5 :: c0 :: c1 :: c2 :: rest ->
     replenish w (hands st, deck st) =
       ([h0 ++ [c0]; h1 ++ [c1]; h2 ++ [c2]; h3 ++ [c3]; h4 ++ [c4]; h5 ++ [c5]],
        rest)).
Proof.
  intros Hlen. split; [done|]. split; [by apply drawAfterTrick_replenish|].
  intros h0 h1 h2 h3 h4 h5 c3 c4 c5 c0 c1 c2 rest -> -> Hall ->.
  repeat (apply Forall_cons in Hall as [? Hall]).
  repeat match goal with
         | H : length ?h = 2%nat |- _ =>
             destruct h as [|? [|? [|? ?]]]; try discriminate H; clear H
         end.
  reflexivity.
Qed.

Lemma drawAfterTrick_order_witness :
  replenish 3 (take 2 <$> hands sampleState, deck sampleState) =
    ([[mkCard hearts R4; mkCard spades RK; mkCard clubs RA];
      [mkCard clubs R4; mkCard hearts R5; mkCard spades RA];
      [mkCard clubs R5; mkCard diamonds R5; mkCard spades R4];
      [mkCard diamonds RA; mkCard hearts RQ; mkCard hearts RA];
      [mkCard clubs R6; mkCard spades R3; mkCard hearts RJ];
      [mkCard hearts RK; mkCard diamonds R7; mkCard clubs RJ]],
     [mkCard clubs RQ; mkCard spades R5]).
Proof.
  destruct (drawAfterTrick_order
              (setHands (take 2 <$> hands sampleState) sampleState) 3)
    as (_ & _ & Hscenario); [reflexivity|].
  apply (Hscenario
           [mkCard hearts R4; mkCard spades RK] [mkCard clubs R4; mkCard hearts R5]
           [mkCard clubs R5; mkCard diamonds R5] [mkCard diamonds RA; mkCard hearts RQ]
           [mkCard clubs R6; mkCard spades R3] [mkCard hearts RK; mkCard diamonds R7]
           (mkCard hearts RA) (mkCard hearts RJ) (mkCard clubs RJ)
           (mkCard clubs RA) (mkCard spades RA) (mkCard spades R4)
           [mkCard clubs RQ; mkCard spades R5]).
  - reflexivity.
  - reflexivity.
  - repeat constructor.
  - reflexivity.
Defined.

(** ** playCard: the sixth play of a trick *)

Lemma resolveTrick_total plays trump :
  plays <> [] ->
  exists r, resolveTrick plays trump = inr r /\
    points r = trickPoints plays /\
    ((tie r = true /\ winner r = None) \/
     (tie r = false /\ exists w, winner r = Some w)).
Proof.
  destruct plays as [|p0 rest]; [done|]. intros _.
  pose proof (maxIndices_nonempty p0 rest trump) as Hne.
  unfold resolveTrick. cbv zeta in *.
  set (m := maxOf _ _) in *. set (ws := map _ (p0 :: rest)) in *.
  pose proof (elem_of_maxIndicesFrom m ws 0) as Hidx.
  destruct (maxIndicesFrom 0 m ws) as [|i0 [|i1 more]]; [done| |].
  - case_decide as Hlen; [simpl in Hlen; lia|].
    destruct (proj1 (Hidx i0)) as (k & -> & Hk); [left|].
    apply lookup_lt_Some in Hk. unfold ws in Hk. rewrite length_map in Hk.
    destruct (lookup_lt_is_Some_2 (p0 :: rest) k Hk) as [p Hp].
    change ([(0 + k)%nat] !! 0%nat) with (Some k). simpl mbind. rewrite Hp.
    eexists. split; [done|]. split; [done|]. right. split; [done|]. by eexists.
  - case_decide as Hlen; [|simpl in Hlen; lia].
    eexists. split; [done|]. split; [done|]. by left.
Qed.

Lemma findIndex_removeFirst c hand :
  c ∈ hand ->
  exists idx, findIndex (fun c' => sameCard c' c) hand = Some idx /\
              splice1 idx hand = removeFirst c hand.
Proof.
  induction hand as [|c' hand IH]; [by intros ?%elem_of_nil|].
  intros Hc. simpl. case_decide as Heq.
  - subst c'. rewrite (proj2 (sameCard_true c c) eq_refl). by exists 0%nat.
  - destruct (sameCard c' c) eqn:Hs; [by apply sameCard_true in Hs|].
    apply elem_of_cons in Hc as [->|Hc]; [done|].
    destruct (IH Hc) as (idx & -> & Hsplice). exists (S idx). split; [done|].
    unfold splice1 in *. simpl. by rewrite Hsplice.
Qed.

Lemma teamOfPlayer_cases w : teamOfPlayer w = 0%nat \/ teamOfPlayer w = 1%nat.
Proof.
  unfold teamOfPlayer. pose proof (Nat.mod_upper_bound w 2). lia.
Qed.

(** C5.  When an accepted [playCard] is the sixth play of the trick, the
    trick is resolved and the trick in progress is cleared.  On a tie the
    trick's points go to the tie points and the lead stays.  On a clear win
    the winner's team gains the trick's points plus the tie points carried
    so far (the other team's score stays), the tie points drop to 0, the
    lead follows the lead policy, and the hands are replenished exactly when
    the draw pile is not empty. *)
Theorem playCard_completes_trick (st : MatchState) (p : nat) (c : Card)
    (trick : list TrickPlay) (hand : list Card) :
  length (hands st) = 6%nat ->
  currentTrick st = Some trick -> length trick = 5%nat ->
  p = turnPlayer st -> hands st !! p = Some hand -> c ∈ hand ->
  let plays := trick ++ [mkPlay p c] in
  let hands1 := <[p := removeFirst c hand]> (hands st) in
  exists r st',
    resolveTrick plays (trump st) = inr r /\
    playCard st p c = Returned tt st' /\
    currentTrick st' = Some [] /\
    log st' = log st ++ [mkLog p c "play"] /\
    (tie r = true ->
       tiePoints st' = tiePoints st + points r /\
       leadPlayer st' = leadPlayer st /\
       scores st' = scores st /\
       hands st' = hands1 /\ deck st' = deck st) /\
    (tie r = false ->
       exists w, winner r = Some w /\
         teamScore (teamOfPlayer w) (scores st')
           = teamScore (teamOfPlayer w) (scores st) + (points r + tiePoints st) /\
         teamScore (1 - teamOfPlayer w) (scores st')
           = teamScore (1 - teamOfPlayer w) (scores st) /\
         tiePoints st' = 0 /\
         leadPlayer st' = nextLead (leadPlayer st) (Some w) /\
         (deck st <> [] -> (hands st', deck st') = replenish w (hands1, deck st)) /\
         (deck st = [] -> hands st' = hands1 /\ deck st' = [])).
Proof.
  intros Hlen Htrick Hfive Hp Hhand Hc plays hands1.
  destruct (resolveTrick_total plays (trump st)) as (r & Hr & Hpts & Hcases).
  { unfold plays. by destruct trick. }
  destruct (findIndex_removeFirst c hand Hc) as (idx & Hidx & Hsplice).
  exists r. unfold playCard.
  rewrite decide_False by (by intros ?).
  rewrite Hhand, Hidx, Hsplice, Htrick. simpl default. fold plays hands1.
  rewrite decide_True by (unfold plays; rewrite length_app; simpl; lia).
  unfold settleTrick. simpl trump. rewrite Hr.
  destruct Hcases as [[Htie Hwin]|[Htie [w Hwin]]]; rewrite Htie.
  - eexists. split; [done|]. split; [done|]. simpl.
    split; [done|]. split; [done|]. split; [done|]. by intros [=].
  - rewrite Hwin. cbv zeta. simpl deck. case_decide as Hdeck.
    + rewrite drawAfterTrick_replenish by (simpl; unfold hands1; by rewrite length_insert).
      cbv zeta. eexists. split; [done|]. split; [done|]. simpl.
      split; [done|]. split; [done|]. split; [by intros [=]|].
      intros _. exists w. split; [done|].
      destruct (teamOfPlayer_cases w) as [-> | ->]; simpl;
        (repeat split; try done);
        try (by destruct (replenish w (hands1, deck st)));
        match goal with H : deck st = [] |- _ => rewrite H in Hdeck end;
        simpl in Hdeck; lia.
    + eexists. split; [done|]. split; [done|]. simpl.
      split; [done|]. split; [done|]. split; [by intros [=]|].
      intros _. exists w. split; [done|].
      assert (deck st = []) as Hnil by (destruct (deck st); [done|simpl in Hdeck; lia]).
      destruct (teamOfPlayer_cases w) as [-> | ->]; simpl;
        repeat split; try done.
Qed.

Lemma playCard_completes_trick_witness :
  exists st', playCard sampleState 5 (mkCard diamonds R7) = Returned tt st' /\
    currentTrick st' = Some [] /\ scores st' = (0, 34) /\ leadPlayer st' = 1%nat.
Proof.
  destruct (playCard_completes_trick sampleState 5 (mkCard diamonds R7)
              [mkPlay 0 (mkCard clubs R3); mkPlay 1 (mkCard spades R7);
               mkPlay 2 (mkCard hearts R6); mkPlay 3 (mkCard clubs RK);
               mkPlay 4 (mkCard clubs R7)]
              [mkCard hearts RK; mkCard diamonds R7; mkCard hearts R7])
    as (r & st' & Hr & Hplay & Htrick & _).
  - reflexivity.
  - reflexivity.
  - reflexivity.
  - reflexivity.
  - reflexivity.
  - apply elem_of_cons; right; apply elem_of_cons; left; reflexivity.
  - exists st'. split; [exact Hplay|]. split; [exact Htrick|].
    vm_compute in Hplay. injection Hplay as <-. split; reflexivity.
Defined.

(** ** Deck factory and initMatch *)

Lemma length_swap {T} i j (l : list T) : length (swap i j l) = length l.
Proof.
  unfold swap. destruct (l !! j), (l !! i); [|done..].
  by rewrite !length_insert.
Qed.

Lemma swap_Permutation {T} i j (l : list T) : swap i j l ≡ₚ l.
Proof.
  unfold swap.
  destruct (l !! j) as [dj|] eqn:Hj; [|done].
  destruct (l !! i) as [di|] eqn:Hi; [|done].
  pose proof (lookup_lt_Some _ _ _ Hj). pose proof (lookup_lt_Some _ _ _ Hi).
  apply Permutation_inj. split; [by rewrite !length_insert|].
  exists (fun k => if decide (k = j) then i else if decide (k = i) then j else k).
  split.
  - intros a b. repeat case_decide; lia.
  - intros k. repeat case_decide; subst.
    + rewrite list_lookup_insert_eq by (by rewrite length_insert). done.
    + rewrite list_lookup_insert_ne by done.
      rewrite list_lookup_insert_eq by done. done.
    + by rewrite !list_lookup_insert_ne by done.
Qed.

Lemma shuffleFrom_Permutation {T} i : forall state (l : list T),
  (shuffleFrom i state l).1 ≡ₚ l.
Proof.
  induction i as [|i IH]; intros state l; [done|].
  cbn [shuffleFrom]. destruct (rngNext state) as [r state'].
  by rewrite IH, swap_Permutation.
Qed.

(** The shuffle only ever swaps inside the deck: the drawn position is at
    most [i]. *)
Lemma shuffle_index_bound state i :
  let j := Z.to_nat (Qfloor ((rngNext state).1 * inject_Z (Z.of_nat i + 1))) in
  (j <= i)%nat.
Proof.
  unfold rngNext. cbv zeta. cbn [fst].
  set (s := (1664525 * state + 1013904223) mod two32).
  assert (0 <= s < two32) as Hs by (apply Z.mod_pos_bound; done).
  unfold Qfloor, Qmult, inject_Z. cbn [Qnum Qden].
  rewrite Pos.mul_1_r. change (Z.pos 4294967296) with two32.
  assert (s * (Z.of_nat i + 1) / two32 < Z.of_nat i + 1).
  { apply Z.div_lt_upper_bound; [done|]. unfold two32 in *. nia. }
  assert (0 <= s * (Z.of_nat i + 1) / two32).
  { apply Z.div_pos; [|done]. unfold two32 in *. nia. }
  lia.
Qed.

Lemma createShuffledDeck_Permutation rng : createShuffledDeck rng ≡ₚ orderedDeck.
Proof. apply shuffleFrom_Permutation. Qed.

Lemma length_createShuffledDeck rng : length (createShuffledDeck rng) = 36%nat.
Proof. by rewrite createShuffledDeck_Permutation. Qed.

Lemma NoDup_orderedDeck : NoDup orderedDeck.
Proof. apply (bool_decide_unpack _). by vm_compute. Qed.

(** C7.  For every seed, [initMatch] deals the first 18 cards of the
    shuffled deck one at a time, round by round and within a round player
    by player (card 6 i + p is the i-th card of player p), takes the 19th
    card as the trump-reveal card and its suit as trump, puts that card at
    the bottom of the draw pile behind the remaining 17 cards, and starts
    with lead 0, scores [0, 0], no tie points and an empty log. *)
Theorem initMatch_deal (seed0 : JsString) :
  let d := createShuffledDeck (createRng (stringToSeed seed0)) in
  length d = 36%nat /\
  exists st tc,
    initMatch seed0 = inr st /\
    d !! 18%nat = Some tc /\
    hands st = (fun p => (fun i => d !!! (6 * i + p)%nat) <$> seq 0 3) <$> seq 0 6 /\
    trump st = suit tc /\
    trumpCard st = tc /\
    deck st = drop 19 d ++ [tc] /\
    last (deck st) = Some tc /\
    leadPlayer st = 0%nat /\
    scores st = (0, 0) /\
    tiePoints st = 0 /\
    log st = [] /\
    seed st = seed0 /\
    currentTrick st = None /\
    punishment st = newPunishmentQueue.
Proof.
  intros d.
  assert (Hlen : length d = 36%nat) by apply length_createShuffledDeck.
  split; [exact Hlen|].
  unfold initMatch.
  change (createShuffledDeck (createRng (stringToSeed seed0))) with d.
  clearbody d.
  spell_out d Hlen.
  eexists; eexists. split; [reflexivity|]. cbn.
  repeat split; reflexivity.
Qed.

(** ** playHand: one trick *)

Lemma cardsRemaining_length st : cardsRemaining st = length (concat (hands st)).
Proof.
  unfold cardsRemaining.
  assert (forall hs acc, foldl (fun acc (h : list Card) => (acc + length h)%nat) acc hs
                         = (acc + length (concat hs))%nat) as H; [|by rewrite H].
  induction hs as [|h hs IH]; intros acc; simpl; [lia|].
  rewrite IH, length_app. lia.
Qed.

Lemma concat_insert_Permutation (hs : list (list Card)) p h h' :
  hs !! p = Some h -> concat (<[p := h']> hs) ++ h ≡ₚ concat hs ++ h'.
Proof.
  intros Hp. pose proof (lookup_lt_Some _ _ _ Hp) as Hlt.
  rewrite insert_take_drop by done.
  rewrite <- (take_drop_middle hs p h Hp) at 3.
  rewrite !concat_app, !concat_cons.
  set (B := concat (drop (S p) hs)).
  rewrite <- !app_assoc. f_equiv.
  rewrite (Permutation_app_comm h' (B ++ h)), <- app_assoc.
  rewrite (app_assoc h B h'), (Permutation_app_comm h B), <- app_assoc.
  done.
Qed.

Lemma concat_remove_head (hs : list (list Card)) p c h :
  hs !! p = Some (c :: h) -> c :: concat (<[p := h]> hs) ≡ₚ concat hs.
Proof.
  intros Hp. apply (inj (.++ h)).
  rewrite <- (concat_insert_Permutation hs p (c :: h) h Hp).
  simpl. by rewrite Permutation_middle.
Qed.

Lemma concat_extend (hs : list (list Card)) p h extra :
  hs !! p = Some h -> concat (<[p := h ++ extra]> hs) ≡ₚ concat hs ++ extra.
Proof.
  intros Hp. apply (inj (.++ h)).
  rewrite (concat_insert_Permutation hs p h (h ++ extra) Hp).
  rewrite <- !app_assoc. f_equiv. apply (comm (++)).
Qed.

Lemma tableKept_refl st : tableKept st st.
Proof. by repeat split. Qed.

Lemma tableKept_trans st1 st2 st3 :
  tableKept st1 st2 -> tableKept st2 st3 -> tableKept st1 st3.
Proof. unfold tableKept. intros (?&?&?&?&?&?) (?&?&?&?&?&?). repeat split; congruence. Qed.

Lemma playFirstCard_inv i plays st plays' st' :
  playFirstCard i plays st = Returned plays' st' ->
  tableKept st st' /\
  (card <$> plays') ++ concat (hands st') ≡ₚ (card <$> plays) ++ concat (hands st) /\
  (length plays <= length plays')%nat /\
  (length plays' = length plays ->
     st' = st /\ hands st !! ((leadPlayer st + i) mod 6)%nat = Some []).
Proof.
  unfold playFirstCard.
  destruct (hands st !! ((leadPlayer st + i) mod 6)%nat) as [[|c h]|] eqn:Hp;
    [| |done]; intros [= <- <-].
  - split; [apply tableKept_refl|]. by repeat split.
  - split; [|split; [|split]].
    + unfold tableKept. simpl. rewrite length_insert. by repeat split.
    + simpl. rewrite fmap_app. simpl. rewrite <- app_assoc. f_equiv. simpl.
      by apply concat_remove_head.
    + rewrite length_app. simpl. lia.
    + rewrite length_app. simpl. lia.
Qed.

Lemma collectPlays_inv offsets : forall plays st plays' st',
  collectPlays offsets plays st = Returned plays' st' ->
  tableKept st st' /\
  (card <$> plays') ++ concat (hands st') ≡ₚ (card <$> plays) ++ concat (hands st) /\
  (length plays <= length plays')%nat /\
  (length plays' = length plays ->
     forall i, i ∈ offsets ->
       hands st !! ((leadPlayer st + i) mod 6)%nat = Some []).
Proof.
  induction offsets as [|i offsets IH]; intros plays st plays' st'.
  - intros [= <- <-]. split; [apply tableKept_refl|]. repeat split; [done..|].
    by intros _ i ?%elem_of_nil.
  - cbn [collectPlays].
    destruct (playFirstCard i plays st) as [plays1 st1|] eqn:Hfirst; [|done].
    cbn [andThen]. intros Hrest.
    apply playFirstCard_inv in Hfirst as (Hk1 & Hperm1 & Hle1 & Hnone1).
    apply IH in Hrest as (Hk2 & Hperm2 & Hle2 & Hnone2).
    split; [by eapply tableKept_trans|].
    split; [by rewrite Hperm2|]. split; [lia|].
    intros Hlen j [->|Hj]%elem_of_cons.
    + apply Hnone1. lia.
    + destruct Hnone1 as [-> _]; [lia|].
      apply Hnone2; [lia|done].
Qed.

(** ** Replenishment keeps the cards and fills the hands *)

Lemma topUp_Permutation hd p :
  concat (topUp hd p).1 ++ (topUp hd p).2 ≡ₚ concat hd.1 ++ hd.2.
Proof.
  unfold topUp. destruct (hd.1 !! p) as [h|] eqn:Hp; [|done]. simpl.
  rewrite (concat_extend _ _ _ _ Hp), <- app_assoc. by rewrite take_drop.
Qed.

Lemma foldl_topUp_Permutation ps : forall hd,
  concat (foldl topUp hd ps).1 ++ (foldl topUp hd ps).2 ≡ₚ concat hd.1 ++ hd.2.
Proof.
  induction ps as [|p ps IH]; intros hd; simpl; [done|].
  by rewrite IH, topUp_Permutation.
Qed.

Lemma topUp_pile_nil hd p : hd.2 = [] -> (topUp hd p).2 = [].
Proof.
  intros Hnil. unfold topUp. destruct (hd.1 !! p); simpl; [|done].
  by rewrite Hnil, drop_nil.
Qed.

Lemma foldl_topUp_pile_nil ps : forall hd, hd.2 = [] -> (foldl topUp hd ps).2 = [].
Proof.
  induction ps as [|p ps IH]; intros hd Hnil; simpl; [done|].
  by apply IH, topUp_pile_nil.
Qed.

Lemma topUp_grows hd p q h :
  hd.1 !! q = Some h ->
  exists h', (topUp hd p).1 !! q = Some h' /\ (length h <= length h')%nat.
Proof.
  intros Hq. unfold topUp. destruct (hd.1 !! p) as [hp|] eqn:Hp; simpl; [|by eauto].
  destruct (decide (p = q)) as [->|Hne].
  - rewrite list_lookup_insert_eq by (by eapply lookup_lt_Some).
    eexists. split; [done|]. simplify_eq. rewrite length_app. lia.
  - rewrite list_lookup_insert_ne by done. by eauto.
Qed.

Lemma foldl_topUp_grows ps : forall hd q h,
  hd.1 !! q = Some h ->
  exists h', (foldl topUp hd ps).1 !! q = Some h' /\ (length h <= length h')%nat.
Proof.
  induction ps as [|p ps IH]; intros hd q h Hq; simpl; [by eauto|].
  destruct (topUp_grows hd p q h Hq) as (h1 & Hq1 & Hle1).
  destruct (IH _ _ _ Hq1) as (h2 & Hq2 & Hle2).
  exists h2. split; [done|lia].
Qed.

Lemma topUp_fills hd p h :
  hd.1 !! p = Some h ->
  (topUp hd p).2 = [] \/
  exists h', (topUp hd p).1 !! p = Some h' /\ (3 <= length h')%nat.
Proof.
  intros Hp. unfold topUp. rewrite Hp. simpl.
  destruct (decide (length hd.2 <= 3 - length h)%nat) as [Hshort|Hlong].
  - left. apply drop_ge. lia.
  - right. rewrite list_lookup_insert_eq by (by eapply lookup_lt_Some).
    eexists. split; [done|]. rewrite length_app, length_take. lia.
Qed.

Lemma foldl_topUp_fills ps : forall hd,
  (foldl topUp hd ps).2 = [] \/
  forall p h, p ∈ ps -> (foldl topUp hd ps).1 !! p = Some h -> (3 <= length h)%nat.
Proof.
  induction ps as [|p ps IH]; intros hd; simpl.
  - right. by intros p h ?%elem_of_nil.
  - destruct (IH (topUp hd p)) as [Hnil|Hfull]; [by left|].
    destruct (hd.1 !! p) as [hp|] eqn:Hp.
    + destruct (topUp_fills hd p hp Hp) as [Hnil|(h1 & Hp1 & Hle1)].
      * left. by apply foldl_topUp_pile_nil.
      * right. intros q h [->|Hq]%elem_of_cons Hlook; [|by eapply Hfull].
        destruct (foldl_topUp_grows ps _ _ _ Hp1) as (h2 & Hp2 & Hle2).
        simplify_eq. lia.
    + right. intros q h [->|Hq]%elem_of_cons Hlook; [|by eapply Hfull].
      apply lookup_lt_Some in Hlook.
      rewrite length_foldl_topUp, length_topUp_hands in Hlook.
      apply lookup_ge_None in Hp. lia.
Qed.

Lemma elem_of_drawOrder w p : (p < 6)%nat -> p ∈ drawOrder w.
Proof.
  intros Hp. unfold drawOrder.
  assert (forall o, ((w + o) mod 6 = (w mod 6 + o) mod 6)%nat) as Hmod.
  { intros o. by rewrite Nat.Div0.add_mod_idemp_l. }
  pose proof (Nat.mod_upper_bound w 6) as Hk.
  apply list_elem_of_fmap.
  exists ((p + 6 - w mod 6) mod 6)%nat. split.
  - rewrite Hmod. clear Hmod. set (k := (w mod 6)%nat) in *. clearbody k.
    assert (k < 6)%nat as Hk' by lia. clear Hk.
    do 6 (destruct k as [|k]; [do 6 (destruct p as [|p]; [reflexivity|]); lia|]).
    lia.
  - apply elem_of_seq. pose proof (Nat.mod_upper_bound (p + 6 - w mod 6) 6). lia.
Qed.

Lemma replenish_fills w hd :
  length hd.1 = 6%nat ->
  (replenish w hd).2 = [] \/
  Forall (fun h => (3 <= length h)%nat) (replenish w hd).1.
Proof.
  intros Hlen. unfold replenish.
  destruct (foldl_topUp_fills (drawOrder w) hd) as [Hnil|Hfull]; [by left|].
  right. apply Forall_lookup. intros p h Hlook. eapply Hfull; [|done].
  apply elem_of_drawOrder. apply lookup_lt_Some in Hlook.
  rewrite length_foldl_topUp in Hlook. lia.
Qed.

(** ** Distinct cards never tie *)

Lemma ruleWeight_heavy_inj trump led c1 c2 :
  100 <= ruleWeight trump led c1 ->
  ruleWeight trump led c1 = ruleWeight trump led c2 -> c1 = c2.
Proof.
  unfold ruleWeight.
  pose proof (rankStrength_bounds (rank c1)). pose proof (rankStrength_bounds (rank c2)).
  destruct c1 as [s1 r1], c2 as [s2 r2]. simpl in *.
  intros Hheavy Heq.
  assert (rankStrength RANK_ORDER r1 = rankStrength RANK_ORDER r2 /\ s1 = s2)
    as [Hr ->].
  { repeat case_decide; subst; split; (done || lia). }
  by apply rankStrength_inj in Hr as ->.
Qed.

Lemma resolveTrick_distinct_no_tie plays trump r :
  NoDup (card <$> plays) -> resolveTrick plays trump = inr r -> tie r = false.
Proof.
  destruct plays as [|p0 rest]; [done|]. intros Hnd.
  unfold resolveTrick. cbv zeta.
  set (w := fun p => cardWeight (card p) trump (Some (suit (card p0)))).
  change (map (fun p => cardWeight (card p) trump (Some (suit (card p0)))) rest)
    with (map w rest).
  change (map (fun p => cardWeight (card p) trump (Some (suit (card p0)))) (p0 :: rest))
    with (map w (p0 :: rest)).
  change (cardWeight (card p0) trump (Some (suit (card p0)))) with (w p0).
  set (m := maxOf (w p0) (map w rest)).
  pose proof (elem_of_maxIndicesFrom m (map w (p0 :: rest)) 0) as Hidx.
  pose proof (NoDup_maxIndicesFrom m (map w (p0 :: rest)) 0) as Hndi.
  destruct (maxIndicesFrom 0 m (map w (p0 :: rest))) as [|i0 [|i1 more]].
  - case_decide; [|done]. simpl in *; lia.
  - case_decide as Hlen; [simpl in Hlen; lia|].
    destruct (_ ≫= _); [|done]. by intros [= <-].
  - exfalso.
    destruct (proj1 (Hidx i0)) as (k0 & -> & Hk0); [left|].
    destruct (proj1 (Hidx i1)) as (k1 & -> & Hk1); [right; left|].
    change (map w ?l) with (w <$> l) in Hk0, Hk1.
    rewrite list_lookup_fmap in Hk0, Hk1.
    destruct ((p0 :: rest) !! k0) as [pa|] eqn:Ha; [|done].
    destruct ((p0 :: rest) !! k1) as [pb|] eqn:Hb; [|done].
    simpl in Hk0, Hk1. injection Hk0 as Hk0. injection Hk1 as Hk1.
    assert (w p0 <= m) as Hm by (apply maxOf_ge; left).
    assert (100 <= w p0) as Hp0.
    { unfold w. rewrite cardWeight_ruleWeight. unfold ruleWeight.
      pose proof (rankStrength_bounds (rank (card p0))).
      repeat case_decide; (done || lia). }
    assert (card pa = card pb) as Hcards.
    { apply (ruleWeight_heavy_inj trump (suit (card p0))).
      - rewrite <- cardWeight_ruleWeight. fold (w pa). lia.
      - rewrite <- !cardWeight_ruleWeight. fold (w pa) (w pb). lia. }
    assert (k0 = k1) as Hsame.
    { eapply (NoDup_lookup _ _ _ (card pa) Hnd); rewrite list_lookup_fmap.
      - by rewrite Ha.
      - by rewrite Hb, Hcards. }
    apply NoDup_cons in Hndi as [Hnotin _]. apply Hnotin. simpl. rewrite Hsame. left.
Qed.

(** ** Points are conserved *)

Lemma cardPoints_app l k : cardPoints (l ++ k) = cardPoints l + cardPoints k.
Proof.
  unfold cardPoints. induction l as [|c l IH]; simpl; [done|]. rewrite IH. lia.
Qed.

Lemma cardPoints_Permutation l k : l ≡ₚ k -> cardPoints l = cardPoints k.
Proof.
  intros Hperm. unfold cardPoints.
  induction Hperm; simpl; [done|congruence|lia|congruence].
Qed.

(** ** Settling a trick *)

Lemma drawFor_inv p st st' :
  drawFor p st = Returned tt st' ->
  st' = setDeck (topUp (hands st, deck st) p).2
          (setHands (topUp (hands st, deck st) p).1 st).
Proof.
  unfold drawFor, topUp. cbn [fst snd].
  destruct (hands st !! p) as [h|]; [|done].
  rewrite drawWhile_topUp. by intros [= <-].
Qed.

Lemma drawOffsets_inv w offsets : forall st st',
  drawOffsets offsets w st = Returned tt st' ->
  st' = setDeck (foldl topUp (hands st, deck st)
                   ((fun offset => (w + offset) mod 6)%nat <$> offsets)).2
          (setHands (foldl topUp (hands st, deck st)
                       ((fun offset => (w + offset) mod 6)%nat <$> offsets)).1 st).
Proof.
  induction offsets as [|o offsets IH]; intros st st'.
  - intros [= <-]. by destruct st.
  - cbn [drawOffsets].
    destruct (drawFor ((w + o) mod 6)%nat st) as [[] st1|] eqn:Hfor; [|done].
    cbn [andThen]. intros Hrest.
    apply drawFor_inv in Hfor as ->. apply IH in Hrest as ->.
    rewrite fmap_cons. cbn [foldl].
    destruct (topUp (hands st, deck st) ((w + o) mod 6)) as [h1 d1]. reflexivity.
Qed.

Lemma drawAfterTrick_inv st w st' :
  drawAfterTrick st w = Returned tt st' ->
  st' = setDeck (replenish w (hands st, deck st)).2
          (setHands (replenish w (hands st, deck st)).1 st).
Proof. apply drawOffsets_inv. Qed.

Lemma pointsAwarded_addScore team amount st :
  (scores (setScores (addScore team amount (scores st)) st)).1 +
  (scores (setScores (addScore team amount (scores st)) st)).2 =
  (scores st).1 + (scores st).2 + amount.
Proof. destruct team; simpl; lia. Qed.

Lemma settleTrick_inv plays st st' :
  settleTrick plays st = Returned tt st' ->
  plays <> [] /\
  length (hands st') = length (hands st) /\
  concat (hands st') ++ deck st' ≡ₚ concat (hands st) ++ deck st /\
  pointsAwarded st' = pointsAwarded st + trickPoints plays /\
  (deck st = [] -> deck st' = []) /\
  (length (hands st) = 6%nat -> NoDup (card <$> plays) ->
     deck st' = [] \/ Forall (fun h => (3 <= length h)%nat) (hands st')).
Proof.
  unfold settleTrick.
  destruct (resolveTrick plays (trump st)) as [e|r] eqn:Hr; [done|].
  assert (plays <> []) as Hne by (by intros ->).
  destruct (resolveTrick_total plays (trump st) Hne) as (r' & Hr' & Hpts & Hcases).
  rewrite Hr in Hr'. injection Hr' as <-.
  destruct Hcases as [[Htie Hwin]|[Htie [w Hwin]]]; rewrite Htie.
  - (* tie *)
    intros [= <-]. split; [done|]. simpl. split; [done|]. split; [done|].
    split; [unfold pointsAwarded; simpl; lia|]. split; [done|].
    intros _ Hnd. by rewrite (resolveTrick_distinct_no_tie _ _ _ Hnd Hr) in Htie.
  - (* clear win *)
    rewrite Hwin. cbv zeta. cbn [deck setLeadPlayer setTiePoints setScores].
    case_decide as Hdeck.
    + intros ->%drawAfterTrick_inv. split; [done|].
      cbn [hands deck setDeck setHands setLeadPlayer setTiePoints setScores].
      split; [apply length_foldl_topUp|].
      split; [apply (foldl_topUp_Permutation _ (hands st, deck st))|].
      split.
      { unfold pointsAwarded. simpl.
        destruct (teamOfPlayer w); simpl; lia. }
      split.
      { intros Hnil. rewrite Hnil in Hdeck. simpl in Hdeck. lia. }
      intros Hlen _. by apply (replenish_fills w (hands st, deck st)).
    + intros [= <-]. split; [done|]. simpl. split; [done|]. split; [done|].
      split.
      { unfold pointsAwarded. simpl.
        destruct (teamOfPlayer w); simpl; lia. }
      split; [done|]. intros _ _. left.
      destruct (deck st); [done|simpl in Hdeck; lia].
Qed.

Lemma settleTrick_returns plays st :
  length (hands st) = 6%nat -> plays <> [] ->
  exists st', settleTrick plays st = Returned tt st'.
Proof.
  intros Hlen Hne. unfold settleTrick.
  destruct (resolveTrick_total plays (trump st) Hne) as (r & -> & _ & Hcases).
  destruct Hcases as [[-> _]|[-> [w ->]]]; [by eexists|].
  cbv zeta. case_decide; [|by eexists].
  rewrite drawAfterTrick_replenish by done. by eexists.
Qed.

(** ** One iteration of the playHand loop *)

Lemma collectPlays_returns offsets : forall plays st,
  length (hands st) = 6%nat ->
  exists plays' st', collectPlays offsets plays st = Returned plays' st'.
Proof.
  induction offsets as [|i offsets IH]; intros plays st Hlen; [by do 2 eexists|].
  cbn [collectPlays].
  assert (exists plays1 st1, playFirstCard i plays st = Returned plays1 st1)
    as (plays1 & st1 & Hfirst).
  { unfold playFirstCard.
    destruct (lookup_lt_is_Some_2 (hands st) ((leadPlayer st + i) mod 6)%nat)
      as [[|c h] ->]; [|by do 2 eexists..].
    rewrite Hlen. apply Nat.mod_upper_bound. lia. }
  rewrite Hfirst. cbn [andThen]. apply IH.
  apply playFirstCard_inv in Hfirst as ((_&_&_&_&_&Hl) & _). congruence.
Qed.

Lemma playHandTrick_inv st st' :
  playHandTrick st = Returned tt st' ->
  length (hands st') = length (hands st) /\
  exists plays,
    plays <> [] /\
    (card <$> plays) ++ concat (hands st') ++ deck st'
      ≡ₚ concat (hands st) ++ deck st /\
    pointsAwarded st' = pointsAwarded st + trickPoints plays /\
    (deck st = [] -> deck st' = []) /\
    (length (hands st) = 6%nat -> NoDup (card <$> plays) ->
       deck st' = [] \/ Forall (fun h => (3 <= length h)%nat) (hands st')).
Proof.
  unfold playHandTrick.
  destruct (collectPlays (seq 0 6) [] st) as [plays st1|] eqn:Hcollect; [|done].
  cbn [andThen]. intros Hsettle.
  apply collectPlays_inv in Hcollect as ((Hd&_&_&Hs&Ht&Hl) & Hperm & _ & _).
  apply settleTrick_inv in Hsettle as (Hne & Hl' & Hperm' & Hpts & Hnil & Hfill).
  split; [congruence|]. exists plays. split; [done|].
  split.
  { rewrite Hperm'. rewrite app_assoc, Hperm, Hd. done. }
  split.
  { rewrite Hpts. unfold pointsAwarded. by rewrite Hs, Ht. }
  split; [rewrite <- Hd; done|].
  intros Hsix. apply Hfill. congruence.
Qed.

Lemma playHandTrick_returns st :
  length (hands st) = 6%nat -> (0 < cardsRemaining st)%nat ->
  exists st', playHandTrick st = Returned tt st'.
Proof.
  intros Hlen Hcards. unfold playHandTrick.
  destruct (collectPlays_returns (seq 0 6) [] st Hlen) as (plays & st1 & Hcollect).
  rewrite Hcollect. cbn [andThen].
  pose proof Hcollect as ((_&_&_&_&_&Hl) & _ & _ & Hnone)%collectPlays_inv.
  apply settleTrick_returns; [congruence|].
  intros ->. rewrite cardsRemaining_length in Hcards.
  assert (concat (hands st) = []) as Hempty; [|rewrite Hempty in Hcards; simpl in Hcards; lia].
  assert (Forall (fun h => h = []) (hands st)) as Hall.
  { apply Forall_lookup. intros p h Hp.
    assert (p ∈ drawOrder (leadPlayer st)) as Hin.
    { apply elem_of_drawOrder. apply lookup_lt_Some in Hp. lia. }
    apply list_elem_of_fmap in Hin as (i & -> & Hi).
    rewrite (Hnone eq_refl i Hi) in Hp. by injection Hp. }
  clear -Hall. induction Hall as [|h hs -> _ IH]; [done|]. by simpl.
Qed.

Lemma playHandTrick_decreases st st' :
  playHandTrick st = Returned tt st' -> (totalCards st' < totalCards st)%nat.
Proof.
  intros (_ & plays & Hne & Hperm & _)%playHandTrick_inv.
  apply Permutation_length in Hperm.
  rewrite !length_app, length_fmap in Hperm. unfold totalCards.
  destruct plays; [done|]. simpl in Hperm. lia.
Qed.

(** ** The playHand loop *)

Lemma playHand_fuel_mono n : forall st out m,
  playHand n st = Some out -> (n <= m)%nat -> playHand m st = Some out.
Proof.
  induction n as [|n IH]; intros st out m Hrun Hle.
  - destruct m; simpl in *; by case_decide.
  - destruct m as [|m]; [lia|]. simpl in *. case_decide; [|done].
    destruct (playHandTrick st) as [[] st1|]; [|done].
    apply IH; [done|lia].
Qed.

Lemma playHand_halts n : forall st,
  (totalCards st <= n)%nat -> exists out, playHand n st = Some out.
Proof.
  induction n as [|n IH]; intros st Hle.
  - simpl. case_decide as Hcards; [|by eexists].
    rewrite cardsRemaining_length in Hcards. unfold totalCards in Hle. lia.
  - simpl. case_decide as Hcards; [|by eexists].
    destruct (playHandTrick st) as [[] st1|] eqn:Htrick; [|by eexists].
    apply IH. apply playHandTrick_decreases in Htrick. lia.
Qed.

Section loop_invariant.
Variable P : MatchState -> Prop.
Hypothesis P_trick : forall st, P st -> (0 < cardsRemaining st)%nat ->
  exists st', playHandTrick st = Returned tt st' /\ P st'.

Lemma playHand_invariant n : forall st,
  P st -> (totalCards st <= n)%nat ->
  exists st', playHand n st = Some (Returned st' st') /\
              P st' /\ cardsRemaining st' = 0%nat.
Proof using P_trick.
  induction n as [|n IH]; intros st HP Hle.
  - simpl. case_decide as Hcards; [|exists st; split; [done|split; [done|lia]]].
    rewrite cardsRemaining_length in Hcards. unfold totalCards in Hle. lia.
  - simpl. case_decide as Hcards; [|exists st; split; [done|split; [done|lia]]].
    destruct (P_trick st HP Hcards) as (st1 & Htrick & HP1). rewrite Htrick.
    apply IH; [done|]. apply playHandTrick_decreases in Htrick. lia.
Qed.
End loop_invariant.

Lemma six_hands_trick st :
  length (hands st) = 6%nat -> (0 < cardsRemaining st)%nat ->
  exists st', playHandTrick st = Returned tt st' /\ length (hands st') = 6%nat.
Proof.
  intros Hlen Hcards.
  destruct (playHandTrick_returns st Hlen Hcards) as [st' Htrick].
  exists st'. split; [done|].
  apply playHandTrick_inv in Htrick as [Hl _]. congruence.
Qed.

Lemma replenish_totalCards st w st' :
  drawAfterTrick st w = Returned tt st' ->
  totalCards st' = totalCards st /\ (length (deck st') <= length (deck st))%nat /\
  length (hands st') = length (hands st).
Proof.
  intros ->%drawAfterTrick_inv. unfold totalCards, replenish.
  cbn [hands deck setDeck setHands].
  pose proof (foldl_topUp_Permutation (drawOrder w) (hands st, deck st)) as Hperm.
  apply Permutation_length in Hperm. rewrite !length_app in Hperm.
  cbn [fst snd] in Hperm.
  split; [done|]. split; [|apply (length_foldl_topUp _ (hands st, deck st))].
  assert (forall ps hd, length (foldl topUp hd ps).2 <= length hd.2)%nat as Hpile.
  { induction ps as [|p ps IH]; intros hd; simpl; [done|].
    etrans; [apply IH|]. unfold topUp. destruct (hd.1 !! p); simpl; [|done].
    rewrite length_drop. lia. }
  apply (Hpile _ (hands st, deck st)).
Qed.

(** C10.  [playHand] terminates.  With the six hands of a match state, an
    iteration entered with a card left in some hand runs to its end; an
    iteration that runs to its end strictly lowers the number of cards in
    hands and pile together, and replenishment only moves cards from the
    pile to the hands; so from any state the loop stops within as many
    tricks as there are cards.  With six hands it stops by reaching its
    exit condition: it returns a state in which every hand is empty. *)
Theorem playHand_terminates (st : MatchState) :
  (length (hands st) = 6%nat -> (0 < cardsRemaining st)%nat ->
     exists st', playHandTrick st = Returned tt st') /\
  (forall st', playHandTrick st = Returned tt st' ->
     (totalCards st' < totalCards st)%nat) /\
  (forall w st', drawAfterTrick st w = Returned tt st' ->
     totalCards st' = totalCards st /\
     (length (deck st') <= length (deck st))%nat) /\
  (exists out, forall fuel, (totalCards st <= fuel)%nat ->
     playHand fuel st = Some out) /\
  (length (hands st) = 6%nat ->
   exists st', (forall fuel, (totalCards st <= fuel)%nat ->
                  playHand fuel st = Some (Returned st' st')) /\
               cardsRemaining st' = 0%nat /\
               Forall (fun h => h = []) (hands st')).
Proof.
  split; [apply playHandTrick_returns|].
  split; [apply playHandTrick_decreases|].
  split; [intros w st' H; apply replenish_totalCards in H; tauto|].
  split.
  - destruct (playHand_halts (totalCards st) st) as [out Hout]; [done|].
    exists out. intros fuel Hfuel. by eapply playHand_fuel_mono.
  - intros Hlen.
    destruct (playHand_invariant (fun s => length (hands s) = 6%nat)
                six_hands_trick (totalCards st) st Hlen)
      as (st' & Hrun & _ & Hdone); [done|].
    exists st'. split; [|split; [done|]].
    + intros fuel Hfuel. by eapply playHand_fuel_mono.
    + rewrite cardsRemaining_length in Hdone.
      apply Forall_forall. intros h Hh.
      apply list_elem_of_lookup in Hh as [i Hi].
      apply take_drop_middle in Hi. rewrite <- Hi in Hdone.
      rewrite concat_app, length_app in Hdone. simpl in Hdone.
      rewrite length_app in Hdone. destruct h; [done|simpl in Hdone; lia].
Qed.

Lemma playHand_terminates_witness :
  exists st', playHand 21 sampleState = Some (Returned st' st') /\
              cardsRemaining st' = 0%nat.
Proof.
  destruct (playHand_terminates sampleState) as (_ & _ & _ & _ & Hsix).
  destruct Hsix as (st' & Hrun & Hdone & _); [reflexivity|].
  exists st'. split; [|exact Hdone].
  apply Hrun. apply le_n.
Defined.

(** ** A dealt hand satisfies the invariant, and every trick keeps it *)

Lemma concat_alter_snoc (hs : list (list Card)) c : forall p,
  (p < length hs)%nat -> concat (alter (.++ [c]) p hs) ≡ₚ c :: concat hs.
Proof.
  induction hs as [|h hs IH]; intros p Hp; [simpl in Hp; lia|].
  destruct p as [|p]; simpl.
  - rewrite <- app_assoc. rewrite (Permutation_app_comm [c]).
    rewrite app_assoc. by rewrite <- Permutation_cons_append.
  - change (h ++ concat (alter (.++ [c]) p hs) ≡ₚ c :: h ++ concat hs).
    rewrite IH by (simpl in Hp; lia). by rewrite Permutation_middle.
Qed.

Lemma dealOne_Permutation hd p :
  (p < length hd.1)%nat ->
  length (dealOne hd p).1 = length hd.1 /\
  concat (dealOne hd p).1 ++ (dealOne hd p).2 ≡ₚ concat hd.1 ++ hd.2.
Proof.
  intros Hp. unfold dealOne. destruct hd as [hs [|c pile]]; simpl in *; [done|].
  split; [apply length_alter|].
  rewrite concat_alter_snoc by done. simpl. by rewrite Permutation_middle.
Qed.

Lemma foldl_dealOne_Permutation ps : forall hd,
  Forall (fun p => (p < length hd.1)%nat) ps ->
  length (foldl dealOne hd ps).1 = length hd.1 /\
  concat (foldl dealOne hd ps).1 ++ (foldl dealOne hd ps).2 ≡ₚ concat hd.1 ++ hd.2.
Proof.
  induction ps as [|p ps IH]; intros hd Hps; simpl; [done|].
  apply Forall_cons in Hps as [Hp Hps].
  destruct (dealOne_Permutation hd p Hp) as [Hlen Hperm].
  destruct (IH (dealOne hd p)) as [Hlen' Hperm'].
  { by rewrite Hlen. }
  split; [congruence|]. by rewrite Hperm'.
Qed.

Lemma deal_rounds_Permutation (rounds ps : list nat) : forall hd,
  Forall (fun p => (p < length hd.1)%nat) ps ->
  length (foldl (fun hd _ => foldl dealOne hd ps) hd rounds).1 = length hd.1 /\
  concat (foldl (fun hd _ => foldl dealOne hd ps) hd rounds).1 ++
    (foldl (fun hd _ => foldl dealOne hd ps) hd rounds).2 ≡ₚ concat hd.1 ++ hd.2.
Proof.
  induction rounds as [|r rounds IH]; intros hd Hps; [done|].
  cbn [foldl].
  destruct (foldl_dealOne_Permutation ps hd Hps) as [Hlen Hperm].
  destruct (IH (foldl dealOne hd ps)) as [Hlen' Hperm'].
  { by rewrite Hlen. }
  split; [congruence|]. by rewrite Hperm'.
Qed.

Lemma deal_Permutation d : concat (deal d).1 ++ (deal d).2 ≡ₚ d.
Proof.
  unfold deal.
  destruct (deal_rounds_Permutation (seq 0 3) (seq 0 6) (replicate 6 [], d))
    as [_ Hperm]; [|by rewrite Hperm].
  apply Forall_forall. intros p ?%elem_of_seq. cbn [fst]. rewrite length_replicate. lia.
Qed.

Lemma initMatch_shape seed0 :
  let d := createShuffledDeck (createRng (stringToSeed seed0)) in
  exists st tc rest,
    initMatch seed0 = inr st /\
    (deal d).2 = tc :: rest /\
    hands st = (deal d).1 /\ deck st = rest ++ [tc] /\
    scores st = (0, 0) /\ tiePoints st = 0 /\
    length (hands st) = 6%nat /\
    Forall (fun h => (3 <= length h)%nat) (hands st) /\
    totalCards st = 36%nat.
Proof.
  intros d.
  assert (Hlen : length d = 36%nat) by apply length_createShuffledDeck.
  unfold initMatch.
  change (createShuffledDeck (createRng (stringToSeed seed0))) with d.
  clearbody d. spell_out d Hlen.
  do 3 eexists. split; [reflexivity|]. cbn.
  repeat split; try reflexivity. repeat constructor.
Qed.

Lemma initMatch_invariant seed0 :
  exists st, initMatch seed0 = inr st /\ handInvariant st /\ totalCards st = 36%nat.
Proof.
  destruct (initMatch_shape seed0)
    as (st & tc & rest & Hinit & Hdeal & Hhands & Hdeck & Hs & Ht & Hsix & Hfull & Htotal).
  exists st. split; [done|]. split; [|done].
  assert (concat (hands st) ++ deck st ≡ₚ orderedDeck) as Hperm.
  { rewrite Hhands, Hdeck, <- Permutation_cons_append, <- Hdeal.
    rewrite deal_Permutation. apply createShuffledDeck_Permutation. }
  split; [done|]. split; [|split; [|by right]].
  - rewrite Hperm. apply NoDup_orderedDeck.
  - unfold pointsAwarded. rewrite Hs, Ht, (cardPoints_Permutation _ _ Hperm).
    reflexivity.
Qed.

Lemma handInvariant_trick st :
  handInvariant st -> (0 < cardsRemaining st)%nat ->
  exists st', playHandTrick st = Returned tt st' /\ handInvariant st'.
Proof.
  intros (Hsix & Hnd & Hpts & Hfull) Hcards.
  destruct (playHandTrick_returns st Hsix Hcards) as [st' Htrick].
  exists st'. split; [done|].
  apply playHandTrick_inv in Htrick
    as (Hlen & plays & Hne & Hperm & Hawarded & Hnil & Hfill).
  rewrite <- Hperm in Hnd.
  rewrite <- (cardPoints_Permutation _ _ Hperm) in Hpts.
  apply NoDup_app in Hnd as (Hndplays & _ & Hnd').
  split; [congruence|]. split; [done|]. split.
  - rewrite cardPoints_app in Hpts. rewrite Hawarded, trickPoints_cardPoints. lia.
  - by apply Hfill.
Qed.

(** C3, as stated, fails: the 36 cards are worth 120 points, not 116, and
    that is what a fully played hand adds up to. *)
Lemma playHand_total_not_116 :
  exists st0 st',
    initMatch (codeUnits "demo-0") = inr st0 /\
    playHand 36 st0 = Some (Returned st' st') /\
    (scores st').1 + (scores st').2 + tiePoints st' <> 116.
Proof.
  do 2 eexists. split; [vm_compute; reflexivity|].
  split; [vm_compute; reflexivity|]. vm_compute. discriminate.
Qed.

(** C3, amended.  For every seed, [playHand (initMatch seed)] runs to
    completion, and at its end team A's score, team B's score and the
    remaining tie points add up to 120, the total point value of the
    36-card deck (4 x (11 + 10 + 4 + 3 + 2)); no card is left in a hand or
    in the pile. *)
Theorem playHand_conserves_points (seed0 : JsString) :
  cardPoints orderedDeck = 120 /\
  exists st0 st',
    initMatch seed0 = inr st0 /\
    (forall fuel, (36 <= fuel)%nat -> playHand fuel st0 = Some (Returned st' st')) /\
    (scores st').1 + (scores st').2 + tiePoints st' = 120 /\
    Forall (fun h => h = []) (hands st') /\ deck st' = [].
Proof.
  split; [reflexivity|].
  destruct (initMatch_invariant seed0) as (st0 & Hinit & Hinv & Htotal).
  destruct (playHand_invariant handInvariant handInvariant_trick 36 st0 Hinv)
    as (st' & Hrun & (Hsix & _ & Hpts & Hfull) & Hdone); [lia|].
  exists st0, st'. split; [done|].
  split; [intros fuel Hfuel; by eapply playHand_fuel_mono|].
  rewrite cardsRemaining_length in Hdone.
  assert (concat (hands st') = []) as Hempty by (by destruct (concat (hands st'))).
  assert (deck st' = []) as Hdeck.
  { destruct Hfull as [|Hfull]; [done|]. exfalso.
    destruct (hands st') as [|h hs]; [done|].
    apply Forall_cons in Hfull as [Hh _]. simpl in Hempty.
    apply app_eq_nil in Hempty as [-> _]. simpl in Hh. lia. }
  rewrite Hempty, Hdeck in Hpts. unfold pointsAwarded in Hpts. simpl in Hpts.
  split; [lia|]. split; [|done].
  clear -Hempty. induction (hands st') as [|h hs IH]; [done|].
  simpl in Hempty. apply app_eq_nil in Hempty as [-> ?]. constructor; auto.
Qed.

Lemma playHand_conserves_points_witness :
  exists st0 st',
    initMatch (codeUnits "demo-0") = inr st0 /\
    playHand 36 st0 = Some (Returned st' st') /\
    (scores st').1 + (scores st').2 + tiePoints st' = 120.
Proof.
  destruct (playHand_conserves_points (codeUnits "demo-0"))
    as (_ & st0 & st' & Hinit & Hrun & Hsum & _).
  exists st0, st'. split; [exact Hinit|].
  split; [apply Hrun; apply le_n|exact Hsum].
Defined.

(** * Further properties of the engine *)

(** ** Seeded random numbers and the deck factory *)

(** X1.  [stringToSeed] returns an unsigned 32-bit integer for every
    string. *)
Theorem stringToSeed_range (str : JsString) : 0 <= stringToSeed str < two32.
Proof.
  unfold stringToSeed.
  assert (forall h, 0 <= h < two32 ->
            0 <= fold_left (fun h c => (Z.lxor h c * 16777619) mod two32) str h < two32)
    as H; [|by apply H].
  induction str as [|c str IH]; intros h Hh; [done|].
  simpl. apply IH. by apply Z.mod_pos_bound.
Qed.

(** X2.  Whatever its state, the generator draws a value in [0, 1), and its
    new state is again an unsigned 32-bit integer, the numerator of that
    value over 2^32. *)
Theorem rngNext_unit_interval (state : Z) :
  (0 <= (rngNext state).1)%Q /\ ((rngNext state).1 < 1)%Q /\
  0 <= (rngNext state).2 < two32 /\
  (rngNext state).1 = Qmake (rngNext state).2 4294967296.
Proof.
  unfold rngNext. cbv zeta. cbn [fst snd].
  set (s := (1664525 * state + 1013904223) mod two32).
  assert (0 <= s < two32) as Hs by (by apply Z.mod_pos_bound).
  unfold Qle, Qlt. cbn [Qnum Qden]. unfold two32 in *.
  repeat split; lia.
Qed.

(** X3.  In the Fisher-Yates loop the drawn position [j] never exceeds [i],
    and the swap exchanges the cards at [i] and [j] and leaves every other
    position of the deck alone. *)
Theorem shuffle_swap_in_range {T} (state : Z) (i : nat) (deck0 : list T) :
  (i < length deck0)%nat ->
  let j := Z.to_nat (Qfloor ((rngNext state).1 * inject_Z (Z.of_nat i + 1))) in
  (j <= i)%nat /\
  swap i j deck0 !! i = deck0 !! j /\
  swap i j deck0 !! j = deck0 !! i /\
  (forall k, k <> i -> k <> j -> swap i j deck0 !! k = deck0 !! k).
Proof.
  intros Hi j. pose proof (shuffle_index_bound state i) as Hj. cbv zeta in Hj.
  fold j in Hj. clearbody j. split; [done|].
  unfold swap.
  destruct (lookup_lt_is_Some_2 deck0 i Hi) as [di Hdi].
  destruct (lookup_lt_is_Some_2 deck0 j) as [dj Hdj]; [lia|].
  rewrite Hdi, Hdj. repeat split.
  - destruct (decide (i = j)) as [->|Hne].
    + rewrite list_lookup_insert_eq by (rewrite length_insert; lia). congruence.
    + rewrite list_lookup_insert_ne by done.
      by rewrite list_lookup_insert_eq by lia.
  - by rewrite list_lookup_insert_eq by (rewrite length_insert; lia).
  - intros k Hki Hkj. by rewrite !list_lookup_insert_ne by done.
Qed.

Lemma shuffle_swap_in_range_witness :
  swap 35 8 orderedDeck !! 35%nat = orderedDeck !! 8%nat.
Proof.
  destruct (shuffle_swap_in_range 7 35 orderedDeck) as (_ & Hswap & _).
  - vm_compute. lia.
  - exact Hswap.
Defined.

Lemma elem_of_orderedDeck c : c ∈ orderedDeck.
Proof.
  destruct c as [s r]. apply list_elem_of_In.
  destruct s, r; vm_compute; tauto.
Qed.

(** X4.  For every generator state the shuffled deck holds 36 cards, no
    card twice and every card of the 4 x 9 universe. *)
Theorem createShuffledDeck_full_deck (rng : Z) :
  length (createShuffledDeck rng) = 36%nat /\
  NoDup (createShuffledDeck rng) /\
  (forall c : Card, c ∈ createShuffledDeck rng).
Proof.
  split; [apply length_createShuffledDeck|]. split.
  - rewrite createShuffledDeck_Permutation. apply NoDup_orderedDeck.
  - intros c. rewrite createShuffledDeck_Permutation. apply elem_of_orderedDeck.
Qed.

(** ** Card weights and the trick resolver *)

(** X5.  Weight classes: a trump outweighs every card that is not a trump;
    a card of the led suit outweighs every card that is neither led suit
    nor trump; inside one class the weight follows the rank strength; and
    with no led suit only trumps are lifted above their bare strength. *)
Theorem cardWeight_classes (c1 c2 : Card) (trump led : Suit) :
  (suit c1 = trump -> suit c2 <> trump ->
     forall l, cardWeight c2 trump l < cardWeight c1 trump l) /\
  (suit c1 = led -> suit c2 <> led -> suit c2 <> trump ->
     cardWeight c2 trump (Some led) < cardWeight c1 trump (Some led)) /\
  (suit c1 = suit c2 ->
     forall l, (cardWeight c1 trump l < cardWeight c2 trump l <->
                rankStrength RANK_ORDER (rank c1) < rankStrength RANK_ORDER (rank c2))) /\
  cardWeight c1 trump None =
    (if decide (suit c1 = trump) then 200 else 0) + rankStrength RANK_ORDER (rank c1).
Proof.
  pose proof (rankStrength_bounds (rank c1)).
  pose proof (rankStrength_bounds (rank c2)).
  unfold cardWeight. cbv zeta. repeat split.
  - intros ? ? l. repeat case_decide; simplify_eq; lia.
  - intros ? ? ?. repeat case_decide; simplify_eq; lia.
  - intros Hw. rewrite H1 in Hw. repeat case_decide; simplify_eq; lia.
  - intros Hs. rewrite H1. repeat case_decide; simplify_eq; lia.
  - repeat case_decide; simplify_eq; lia.
Qed.

Lemma cardWeight_classes_witness :
  cardWeight (mkCard clubs RA) spades (Some clubs)
    < cardWeight (mkCard spades R3) spades (Some clubs).
Proof.
  apply (proj1 (cardWeight_classes (mkCard spades R3) (mkCard clubs RA) spades clubs)).
  - reflexivity.
  - discriminate.
Defined.

Lemma NoDup_singleton_char (l : list nat) i :
  NoDup l -> (forall x, x ∈ l <-> x = i) -> l = [i].
Proof.
  intros Hnd Hl. destruct l as [|a [|b l]].
  - assert (i ∈ @nil nat) as ?%elem_of_nil by (by apply Hl). done.
  - f_equal. apply Hl. left.
  - assert (a = i) by (apply Hl; left).
    assert (b = i) by (apply Hl; right; left). subst.
    apply NoDup_cons in Hnd as [Hnd _]. exfalso. apply Hnd. left.
Qed.

(** The two ways [resolveTrick] can end on a non-empty trick, in terms of
    the positions that carry the maximal weight. *)
Lemma resolveTrick_cases p0 rest trump :
  let plays := p0 :: rest in
  let w := fun q => cardWeight (card q) trump (Some (suit (card p0))) in
  let m := maxOf (w p0) (map w rest) in
  (forall q, q ∈ plays -> w q <= m) /\
  ((exists i p, plays !! i = Some p /\ w p = m /\
      (forall j q, plays !! j = Some q -> w q = m -> j = i) /\
      resolveTrick plays trump =
        inr {| winner := Some (player p); points := trickPoints plays; tie := false |})
   \/
   (exists i j p q, i <> j /\ plays !! i = Some p /\ plays !! j = Some q /\
      w p = m /\ w q = m /\
      resolveTrick plays trump =
        inr {| winner := None; points := trickPoints plays; tie := true |})).
Proof.
  intros plays w m. subst plays.
  assert (Hge : forall q, q ∈ p0 :: rest -> w q <= m).
  { intros q Hq. apply (maxOf_ge _ _ (w q)).
    change (w p0 :: map w rest) with (map w (p0 :: rest)).
    apply list_elem_of_fmap. by exists q. }
  split; [done|].
  pose proof (maxIndices_nonempty p0 rest trump) as Hne. cbv zeta in Hne.
  change (maxIndicesFrom 0 m (map w (p0 :: rest)) <> []) in Hne.
  pose proof (elem_of_maxIndicesFrom m (map w (p0 :: rest)) 0) as Hidx.
  pose proof (NoDup_maxIndicesFrom m (map w (p0 :: rest)) 0) as Hnd.
  assert (Hlook : forall k, k ∈ maxIndicesFrom 0 m (map w (p0 :: rest)) <->
                            exists q, (p0 :: rest) !! k = Some q /\ w q = m).
  { intros k. rewrite Hidx. split.
    - intros (k' & -> & Hk). change (map w ?l) with (w <$> l) in Hk.
      rewrite list_lookup_fmap in Hk. simpl.
      destruct ((p0 :: rest) !! k') as [q|]; [|done]. exists q. split; [done|].
      by injection Hk.
    - intros (q & Hq & Hw). exists k. split; [done|].
      change (map w ?l) with (w <$> l).
      by rewrite list_lookup_fmap, Hq, <- Hw. }
  unfold resolveTrick. cbv zeta.
  change (maxIndicesFrom 0 _ _) with (maxIndicesFrom 0 m (map w (p0 :: rest))).
  destruct (maxIndicesFrom 0 m (map w (p0 :: rest))) as [|i0 [|i1 more]]; [done| |].
  - left. destruct (proj1 (Hlook i0)) as (p & Hp & Hw); [left|].
    exists i0, p. split; [done|]. split; [done|]. split.
    + intros j q Hq Hwq. apply list_elem_of_singleton, Hlook. by exists q.
    + case_decide as Hlen; [simpl in Hlen; lia|].
      change ([i0] !! 0%nat) with (Some i0). simpl mbind. by rewrite Hp.
  - right. destruct (proj1 (Hlook i0)) as (p & Hp & Hwp); [left|].
    destruct (proj1 (Hlook i1)) as (q & Hq & Hwq); [right; left|].
    exists i0, i1, p, q. split.
    { intros ->. apply NoDup_cons in Hnd as [Hnd _]. apply Hnd. left. }
    do 4 (split; [done|]).
    case_decide as Hlen; [done|simpl in Hlen; lia].
Qed.

(** A play that strictly outweighs every other play wins the trick. *)
Lemma resolveTrick_strict_max p0 rest trump i p :
  let plays := p0 :: rest in
  let w := fun q => cardWeight (card q) trump (Some (suit (card p0))) in
  plays !! i = Some p ->
  (forall j q, plays !! j = Some q -> j <> i -> w q < w p) ->
  resolveTrick plays trump =
    inr {| winner := Some (player p); points := trickPoints plays; tie := false |}.
Proof.
  intros plays w Hp Hstrict. subst plays w. cbv beta in Hstrict.
  destruct (resolveTrick_cases p0 rest trump) as [Hge Hcases].
  cbv zeta beta in Hge, Hcases.
  set (m := maxOf _ _) in *.
  assert (cardWeight (card p) trump (Some (suit (card p0))) <= m) as Hpm
    by (apply Hge; by eapply list_elem_of_lookup_2).
  destruct Hcases as [(i' & p' & Hp' & Hw' & _ & Hres)
                     |(i1 & i2 & p1 & p2 & Hne & Hp1 & Hp2 & Hw1 & Hw2 & _)].
  - destruct (decide (i' = i)) as [->|Hi]; [by simplify_eq|].
    specialize (Hstrict i' p' Hp' Hi). lia.
  - destruct (decide (i1 = i)) as [->|Hi].
    + specialize (Hstrict i2 p2 Hp2 ltac:(congruence)). lia.
    + specialize (Hstrict i1 p1 Hp1 Hi). lia.
Qed.

(** X6.  When [resolveTrick] names a winner, that player made one of the
    plays, and that play strictly outweighs every other play of the trick;
    so the winning card is a trump whenever a trump was played, and a card
    of the led suit otherwise. *)
Theorem resolveTrick_winner_heaviest (p0 : TrickPlay) (rest : list TrickPlay)
    (trump : Suit) (r : TrickResult) (w : nat) :
  resolveTrick (p0 :: rest) trump = inr r -> winner r = Some w ->
  exists i p,
    (p0 :: rest) !! i = Some p /\ player p = w /\
    (forall j q, (p0 :: rest) !! j = Some q -> j <> i ->
       cardWeight (card q) trump (Some (suit (card p0)))
         < cardWeight (card p) trump (Some (suit (card p0)))) /\
    ((exists q, q ∈ p0 :: rest /\ suit (card q) = trump) -> suit (card p) = trump) /\
    ((forall q, q ∈ p0 :: rest -> suit (card q) <> trump) ->
       suit (card p) = suit (card p0)).
Proof.
  intros Hr Hw.
  destruct (resolveTrick_cases p0 rest trump) as [Hge Hcases].
  cbv zeta beta in Hge, Hcases.
  set (m := maxOf _ _) in *.
  destruct Hcases as [(i & p & Hp & Hwp & Huniq & Hres)|(?&?&?&?&_&_&_&_&_&Hres)];
    rewrite Hres in Hr; injection Hr as <-; [|done].
  simpl in Hw. injection Hw as <-.
  exists i, p. split; [done|]. split; [done|].
  assert (Hstrict : forall j q, (p0 :: rest) !! j = Some q -> j <> i ->
            cardWeight (card q) trump (Some (suit (card p0)))
              < cardWeight (card p) trump (Some (suit (card p0)))).
  { intros j q Hq Hj.
    assert (cardWeight (card q) trump (Some (suit (card p0))) <= m)
      by (apply Hge; by eapply list_elem_of_lookup_2).
    destruct (decide (cardWeight (card q) trump (Some (suit (card p0))) = m))
      as [Heq|Hneq]; [|lia].
    by specialize (Huniq j q Hq Heq). }
  split; [done|].
  assert (Hall : forall q, q ∈ p0 :: rest ->
            cardWeight (card q) trump (Some (suit (card p0)))
              <= cardWeight (card p) trump (Some (suit (card p0)))).
  { intros q Hq. rewrite Hwp. by apply Hge. }
  pose proof (rankStrength_bounds (rank (card p))) as Hb.
  split.
  - intros (q & Hq & Hsuit). specialize (Hall q Hq). unfold cardWeight in Hall.
    pose proof (rankStrength_bounds (rank (card q))).
    cbv zeta in Hall. repeat case_decide; simplify_eq; (done || lia).
  - intros Hnone. specialize (Hall p0 ltac:(left)).
    assert (suit (card p) <> trump) by (apply Hnone; by eapply list_elem_of_lookup_2).
    assert (suit (card p0) <> trump) by (apply Hnone; left).
    unfold cardWeight in Hall.
    pose proof (rankStrength_bounds (rank (card p0))).
    cbv zeta in Hall. repeat case_decide; simplify_eq; (done || lia).
Qed.

Lemma resolveTrick_winner_heaviest_witness :
  exists i p,
    [mkPlay 0 (mkCard clubs R6); mkPlay 3 (mkCard spades R4);
     mkPlay 4 (mkCard clubs RK)] !! i = Some p /\ player p = 3%nat.
Proof.
  destruct (resolveTrick_winner_heaviest
              (mkPlay 0 (mkCard clubs R6))
              [mkPlay 3 (mkCard spades R4); mkPlay 4 (mkCard clubs RK)] spades
              {| winner := Some 3%nat; points := 4; tie := false |} 3)
    as (i & p & Hp & Hw & _).
  - reflexivity.
  - reflexivity.
  - exists i, p. split; [exact Hp|exact Hw].
Defined.

(** X7.  A single trump wins: if exactly one play is a trump, its player
    wins the trick outright, whatever the ranks. *)
Theorem resolveTrick_lone_trump_wins (p0 : TrickPlay) (rest : list TrickPlay)
    (trump : Suit) (i : nat) (p : TrickPlay) :
  (p0 :: rest) !! i = Some p -> suit (card p) = trump ->
  (forall j q, (p0 :: rest) !! j = Some q -> j <> i -> suit (card q) <> trump) ->
  resolveTrick (p0 :: rest) trump =
    inr {| winner := Some (player p); points := trickPoints (p0 :: rest);
           tie := false |}.
Proof.
  intros Hp Hsuit Hothers. apply (resolveTrick_strict_max p0 rest trump i p Hp).
  intros j q Hq Hj. specialize (Hothers j q Hq Hj).
  pose proof (rankStrength_bounds (rank (card p))).
  pose proof (rankStrength_bounds (rank (card q))).
  unfold cardWeight. cbv zeta. repeat case_decide; simplify_eq; (done || lia).
Qed.

Lemma resolveTrick_lone_trump_wins_witness :
  resolveTrick [mkPlay 0 (mkCard clubs R6); mkPlay 3 (mkCard spades R4);
                mkPlay 4 (mkCard clubs RK)] spades =
    inr {| winner := Some 3%nat; points := 4; tie := false |}.
Proof.
  apply (resolveTrick_lone_trump_wins (mkPlay 0 (mkCard clubs R6))
           [mkPlay 3 (mkCard spades R4); mkPlay 4 (mkCard clubs RK)] spades 1
           (mkPlay 3 (mkCard spades R4))).
  - reflexivity.
  - reflexivity.
  - intros [|[|[|j]]] q Hq Hj; simpl in Hq; try discriminate Hq;
      try (injection Hq as <-; discriminate). by destruct Hj.
Defined.

(** X8.  The leader wins when nobody follows suit or trumps: if no other
    play is of the led suit or of the trump suit, the first play wins. *)
Theorem resolveTrick_leader_wins_unfollowed (p0 : TrickPlay)
    (rest : list TrickPlay) (trump : Suit) :
  (forall q, q ∈ rest ->
     suit (card q) <> trump /\ suit (card q) <> suit (card p0)) ->
  resolveTrick (p0 :: rest) trump =
    inr {| winner := Some (player p0); points := trickPoints (p0 :: rest);
           tie := false |}.
Proof.
  intros Hrest. apply (resolveTrick_strict_max p0 rest trump 0 p0 eq_refl).
  intros [|j] q Hq Hj; [done|]. simpl in Hq.
  destruct (Hrest q) as [Hnt Hnl]; [by eapply list_elem_of_lookup_2|].
  pose proof (rankStrength_bounds (rank (card p0))).
  pose proof (rankStrength_bounds (rank (card q))).
  unfold cardWeight. cbv zeta. repeat case_decide; simplify_eq; (done || lia).
Qed.

Lemma resolveTrick_leader_wins_unfollowed_witness :
  resolveTrick [mkPlay 2 (mkCard hearts R3); mkPlay 3 (mkCard clubs RA)] spades =
    inr {| winner := Some 2%nat; points := 11; tie := false |}.
Proof.
  apply (resolveTrick_leader_wins_unfollowed (mkPlay 2 (mkCard hearts R3))
           [mkPlay 3 (mkCard clubs RA)] spades).
  intros q Hq. apply list_elem_of_singleton in Hq. rewrite Hq.
  split; discriminate.
Defined.

(** X9.  A tie needs two copies of one card: whenever [resolveTrick]
    reports a tie, it names no winner and two different positions of the
    trick hold the same card (same suit and rank). *)
Theorem resolveTrick_tie_needs_duplicate (plays : list TrickPlay) (trump : Suit)
    (r : TrickResult) :
  resolveTrick plays trump = inr r -> tie r = true ->
  winner r = None /\
  exists i j p q, i <> j /\ plays !! i = Some p /\ plays !! j = Some q /\
                  card p = card q.
Proof.
  destruct plays as [|p0 rest]; [done|]. intros Hr Htie.
  destruct (resolveTrick_cases p0 rest trump) as [Hge Hcases].
  cbv zeta beta in Hge, Hcases.
  set (m := maxOf _ _) in *.
  destruct Hcases as [(?&?&_&_&_&Hres)|(i & j & p & q & Hne & Hp & Hq & Hwp & Hwq & Hres)];
    rewrite Hres in Hr; injection Hr as <-; [done|].
  split; [done|]. exists i, j, p, q. do 3 (split; [done|]).
  assert (cardWeight (card p0) trump (Some (suit (card p0))) <= m) as Hm
    by (apply Hge; left).
  assert (100 <= cardWeight (card p0) trump (Some (suit (card p0)))) as Hp0.
  { rewrite cardWeight_ruleWeight. unfold ruleWeight.
    pose proof (rankStrength_bounds (rank (card p0))).
    repeat case_decide; (done || lia). }
  apply (ruleWeight_heavy_inj trump (suit (card p0))).
  - rewrite <- cardWeight_ruleWeight. lia.
  - rewrite <- !cardWeight_ruleWeight. lia.
Qed.

Lemma resolveTrick_tie_needs_duplicate_witness :
  exists i j p q,
    i <> j /\
    [mkPlay 0 (mkCard hearts RA); mkPlay 1 (mkCard hearts RA)] !! i = Some p /\
    [mkPlay 0 (mkCard hearts RA); mkPlay 1 (mkCard hearts RA)] !! j = Some q /\
    card p = card q.
Proof.
  apply (resolveTrick_tie_needs_duplicate
           [mkPlay 0 (mkCard hearts RA); mkPlay 1 (mkCard hearts RA)] clubs
           {| winner := None; points := 22; tie := true |}).
  - reflexivity.
  - reflexivity.
Defined.

Lemma maxOf_Permutation w0 ws ws' : ws ≡ₚ ws' -> maxOf w0 ws = maxOf w0 ws'.
Proof.
  intros Hperm.
  pose proof (maxOf_elem ws w0) as Hin. pose proof (maxOf_elem ws' w0) as Hin'.
  assert (w0 :: ws ≡ₚ w0 :: ws') as Hp by (by f_equiv).
  apply Z.le_antisymm; apply maxOf_ge.
  - by rewrite <- Hp.
  - by rewrite Hp.
Qed.

Lemma resolveTrick_tail_Permutation_le p0 rest rest' trump r :
  rest ≡ₚ rest' ->
  resolveTrick (p0 :: rest) trump = inr r ->
  resolveTrick (p0 :: rest') trump = inr r.
Proof.
  intros Hperm Hr.
  assert (p0 :: rest ≡ₚ p0 :: rest') as Hplays by (by f_equiv).
  assert (trickPoints (p0 :: rest') = trickPoints (p0 :: rest)) as Hpts.
  { rewrite !trickPoints_cardPoints. apply cardPoints_Permutation.
    by rewrite Hplays. }
  destruct (resolveTrick_cases p0 rest trump) as [Hge Hcases].
  destruct (resolveTrick_cases p0 rest' trump) as [Hge' Hcases'].
  cbv zeta beta in Hge, Hcases, Hge', Hcases'.
  rewrite <- (maxOf_Permutation _ (map _ rest) (map _ rest')) in Hge', Hcases'
    by (by apply fmap_Permutation).
  set (m := maxOf _ _) in *. rewrite Hpts in Hcases'.
  destruct (proj1 (Permutation_inj _ _) Hplays) as (_ & f & Hf & Hlook).
  symmetry in Hplays.
  destruct (proj1 (Permutation_inj _ _) Hplays) as (_ & g & Hg & Hlook').
  destruct Hcases as [(i & p & Hp & Hwp & Huniq & Hres)
                     |(i & j & p & q & Hne & Hp & Hq & Hwp & Hwq & Hres)];
    destruct Hcases' as [(i' & p' & Hp' & Hwp' & Huniq' & Hres')
                        |(i' & j' & p' & q' & Hne' & Hp' & Hq' & Hwp' & Hwq' & Hres')].
  - rewrite Hres', <- Hr, Hres. do 3 f_equal.
    rewrite Hlook' in Hp'. specialize (Huniq _ _ Hp' Hwp'). subst. by simplify_eq.
  - exfalso. rewrite Hlook' in Hp', Hq'.
    pose proof (Huniq _ _ Hp' Hwp'). pose proof (Huniq _ _ Hq' Hwq').
    apply Hne', (inj g). congruence.
  - exfalso. rewrite Hlook in Hp, Hq.
    pose proof (Huniq' _ _ Hp Hwp). pose proof (Huniq' _ _ Hq Hwq).
    apply Hne, (inj f). congruence.
  - by rewrite Hres', <- Hr, Hres.
Qed.

(** X10.  Apart from who led, the order of the plays does not matter: two
    tricks with the same first play and the same other plays in any order
    resolve to the same winner, points and tie flag. *)
Theorem resolveTrick_tail_Permutation (p0 : TrickPlay) (rest rest' : list TrickPlay)
    (trump : Suit) :
  rest ≡ₚ rest' ->
  resolveTrick (p0 :: rest) trump = resolveTrick (p0 :: rest') trump.
Proof.
  intros Hperm.
  destruct (resolveTrick_total (p0 :: rest) trump) as (r & Hr & _); [done|].
  rewrite Hr. symmetry. by eapply resolveTrick_tail_Permutation_le.
Qed.

Lemma resolveTrick_tail_Permutation_witness :
  resolveTrick [mkPlay 0 (mkCard clubs R6); mkPlay 3 (mkCard spades R4);
                mkPlay 4 (mkCard clubs RK)] spades =
  resolveTrick [mkPlay 0 (mkCard clubs R6); mkPlay 4 (mkCard clubs RK);
                mkPlay 3 (mkCard spades R4)] spades.
Proof.
  apply (resolveTrick_tail_Permutation (mkPlay 0 (mkCard clubs R6))).
  apply perm_swap.
Defined.

(** ** Lead policy and teams *)

(** X11.  Seats alternate between the two teams, and after a trick with a
    winner the lead is always held by a player of the winner's team: the
    previous leader if that team already led, the winner otherwise.  Asking
    again with the same winner changes nothing. *)
Theorem nextLead_team (currentLead w : nat) :
  (teamOfPlayer w < 2)%nat /\
  teamOfPlayer (S w) <> teamOfPlayer w /\
  teamOfPlayer (S (S w)) = teamOfPlayer w /\
  teamOfPlayer (nextLead currentLead (Some w)) = teamOfPlayer w /\
  (nextLead currentLead (Some w) = currentLead \/
   nextLead currentLead (Some w) = w) /\
  nextLead (nextLead currentLead (Some w)) (Some w) = nextLead currentLead (Some w).
Proof.
  unfold nextLead, teamOfPlayer.
  assert (w mod 2 < 2)%nat by (apply Nat.mod_upper_bound; lia).
  assert (S w mod 2 <> w mod 2)%nat.
  { replace (S w) with (w + 1)%nat by lia.
    rewrite <- Nat.Div0.add_mod_idemp_l.
    destruct (w mod 2)%nat as [|[|?]]; [done|done|lia]. }
  assert (S (S w) mod 2 = w mod 2)%nat.
  { replace (S (S w)) with (w + 1 * 2)%nat by lia. apply Nat.Div0.mod_add. }
  split; [done|]. split; [done|]. split; [done|].
  split; [by case_decide|]. split; [case_decide; auto|].
  repeat case_decide; congruence.
Qed.

(** ** Punishment queue over any number of calls *)

Lemma submits_add n k : submits (n + k) = Nat.iter n submit (submits k).
Proof. unfold submits. apply Nat.iter_add. Qed.

Lemma submits_mod n : submits n = submits (n mod 8).
Proof.
  rewrite (Nat.div_mod_eq n 8) at 1.
  generalize (n mod 8)%nat as r. generalize (n / 8)%nat as q.
  induction q as [|q IH]; intros r.
  - reflexivity.
  - replace (8 * S q + r)%nat with ((8 * q + r) + 8)%nat by lia.
    rewrite submits_add. change (submits 8) with newPunishmentQueue.
    apply IH.
Qed.

(** X12.  From a fresh queue, after any number of [submit()] calls: the
    state repeats every 8 calls, the cursor is the number of calls modulo
    8, and the visible queue never shows a "2" and never holds more than
    six labels. *)
Theorem submits_periodic (n : nat) :
  submits (n + 8) = submits n /\
  index (submits n) = (n mod 8)%nat /\
  ("2"%string ∉ queue (submits n)) /\
  (length (queue (submits n)) <= 6)%nat.
Proof.
  split.
  { rewrite submits_add. change (submits 8) with newPunishmentQueue. done. }
  rewrite submits_mod. pose proof (Nat.mod_upper_bound n 8) as Hr.
  generalize dependent (n mod 8)%nat. intros r Hr.
  assert (r < 8)%nat as Hr' by lia. clear Hr.
  do 8 (destruct r as [|r];
        [split; [reflexivity|]; split;
           [intros Hin; apply list_elem_of_In in Hin; vm_compute in Hin;
            intuition discriminate
           |vm_compute; lia]|]).
  lia.
Qed.

(** ** initMatch and drawAfterTrick: where the cards are *)

Lemma initMatch_trump_shape seed0 :
  let d := createShuffledDeck (createRng (stringToSeed seed0)) in
  exists st tc rest,
    initMatch seed0 = inr st /\
    (deal d).2 = tc :: rest /\
    hands st = (deal d).1 /\ deck st = rest ++ [tc] /\
    trumpCard st = tc /\ trump st = suit tc /\
    Forall (fun h => length h = 3%nat) (hands st) /\
    length (hands st) = 6%nat /\ length (deck st) = 18%nat.
Proof.
  intros d.
  assert (Hlen : length d = 36%nat) by apply length_createShuffledDeck.
  unfold initMatch.
  change (createShuffledDeck (createRng (stringToSeed seed0))) with d.
  clearbody d. spell_out d Hlen.
  do 3 eexists. split; [reflexivity|]. cbn.
  repeat split; try reflexivity. repeat constructor.
Qed.

(** X13.  For every seed, [initMatch] hands out one full deck: the six
    hands of three cards and the pile of eighteen together hold each of the
    36 cards exactly once, and the trump card lies in the pile (at its
    bottom), not in a hand. *)
Theorem initMatch_partitions_deck (seed0 : JsString) :
  exists st,
    initMatch seed0 = inr st /\
    concat (hands st) ++ deck st ≡ₚ orderedDeck /\
    NoDup (concat (hands st) ++ deck st) /\
    length (hands st) = 6%nat /\
    Forall (fun h => length h = 3%nat) (hands st) /\
    length (deck st) = 18%nat /\
    last (deck st) = Some (trumpCard st) /\
    (trumpCard st ∉ concat (hands st)) /\
    trump st = suit (trumpCard st).
Proof.
  destruct (initMatch_trump_shape seed0)
    as (st & tc & rest & Hinit & Hdeal & Hhands & Hdeck & Htc & Htrump & Hthree
        & Hsix & Hpile).
  exists st. split; [done|].
  assert (concat (hands st) ++ deck st ≡ₚ orderedDeck) as Hperm.
  { rewrite Hhands, Hdeck, <- Permutation_cons_append, <- Hdeal.
    rewrite deal_Permutation. apply createShuffledDeck_Permutation. }
  assert (NoDup (concat (hands st) ++ deck st)) as Hnd.
  { rewrite Hperm. apply NoDup_orderedDeck. }
  split; [done|]. split; [done|]. split; [done|]. split; [done|].
  split; [done|]. split; [by rewrite Hdeck, Htc, last_snoc|].
  split; [|congruence].
  apply NoDup_app in Hnd as (_ & Hdisj & _). intros Hin.
  apply (Hdisj _ Hin). rewrite Hdeck, Htc. apply elem_of_app. right. left.
Qed.

Lemma topUp_prefix hd p q h :
  hd.1 !! q = Some h ->
  exists h', (topUp hd p).1 !! q = Some h' /\ h `prefix_of` h' /\
             (length h' <= 3 `max` length h)%nat.
Proof.
  intros Hq. unfold topUp. destruct (hd.1 !! p) as [hp|] eqn:Hp; simpl.
  2:{ exists h. split; [done|]. split; [done|lia]. }
  destruct (decide (p = q)) as [->|Hne].
  - rewrite list_lookup_insert_eq by (by eapply lookup_lt_Some).
    eexists. split; [done|]. simplify_eq. split; [by apply prefix_app_r|].
    rewrite length_app, length_take. lia.
  - rewrite list_lookup_insert_ne by done.
    exists h. split; [done|]. split; [done|lia].
Qed.

Lemma foldl_topUp_prefix ps : forall hd q h,
  hd.1 !! q = Some h ->
  exists h', (foldl topUp hd ps).1 !! q = Some h' /\ h `prefix_of` h' /\
             (length h' <= 3 `max` length h)%nat.
Proof.
  induction ps as [|p ps IH]; intros hd q h Hq; simpl.
  { exists h. split; [done|]. split; [done|lia]. }
  destruct (topUp_prefix hd p q h Hq) as (h1 & Hq1 & Hpre1 & Hle1).
  destruct (IH _ _ _ Hq1) as (h2 & Hq2 & Hpre2 & Hle2).
  exists h2. split; [done|]. split; [by etrans|lia].
Qed.

Lemma foldl_topUp_suffix ps : forall hd, (foldl topUp hd ps).2 `suffix_of` hd.2.
Proof.
  induction ps as [|p ps IH]; intros hd; simpl; [done|].
  etrans; [apply IH|]. unfold topUp. destruct (hd.1 !! p); simpl; [|done].
  apply suffix_drop.
Qed.

(** X14.  Replenishment only moves cards from the front of the pile to the
    ends of hands.  With six hands it always returns; hands and pile
    together hold the same cards as before; every hand keeps its cards, in
    order, as a prefix, a hand of three or more is left alone and no hand
    is taken beyond three; what is left of the pile is a tail of the old
    pile; and afterwards the pile is empty or every hand holds at least
    three cards.  Scores, tie points, lead, log and trick are untouched. *)
Theorem drawAfterTrick_conserves (st : MatchState) (w : nat) :
  length (hands st) = 6%nat ->
  exists st',
    drawAfterTrick st w = Returned tt st' /\
    concat (hands st') ++ deck st' ≡ₚ concat (hands st) ++ deck st /\
    (forall p h, hands st !! p = Some h ->
       exists h', hands st' !! p = Some h' /\ h `prefix_of` h' /\
                  ((3 <= length h)%nat -> h' = h) /\
                  (length h' <= 3 `max` length h)%nat) /\
    deck st' `suffix_of` deck st /\
    (deck st' = [] \/ Forall (fun h => (3 <= length h)%nat) (hands st')) /\
    scores st' = scores st /\ tiePoints st' = tiePoints st /\
    leadPlayer st' = leadPlayer st /\ log st' = log st /\
    currentTrick st' = currentTrick st /\ sameSetup st st'.
Proof.
  intros Hlen. rewrite drawAfterTrick_replenish by done. cbv zeta.
  eexists. split; [done|]. cbn [hands deck setDeck setHands].
  split; [apply (foldl_topUp_Permutation _ (hands st, deck st))|].
  split.
  { intros p h Hp.
    destruct (foldl_topUp_prefix (drawOrder w) (hands st, deck st) p h Hp)
      as (h' & Hp' & Hpre & Hle).
    exists h'. split; [done|]. split; [done|]. split; [|done].
    intros Hthree. symmetry. apply prefix_length_eq; [done|lia]. }
  split; [apply (foldl_topUp_suffix _ (hands st, deck st))|].
  split; [by apply (replenish_fills w (hands st, deck st))|].
  by repeat split.
Qed.

Lemma drawAfterTrick_conserves_witness :
  exists st', drawAfterTrick sampleState 1 = Returned tt st' /\
              concat (hands st') ++ deck st'
                ≡ₚ concat (hands sampleState) ++ deck sampleState.
Proof.
  destruct (drawAfterTrick_conserves sampleState 1) as (st' & Hdraw & Hperm & _).
  - reflexivity.
  - exists st'. split; [exact Hdraw|exact Hperm].
Defined.

(** ** playCard and legalMoves *)

Lemma findIndex_Some {T} (f : T -> bool) l idx :
  findIndex f l = Some idx -> exists x, l !! idx = Some x /\ f x = true.
Proof.
  revert idx. induction l as [|y l IH]; intros idx; simpl; [done|].
  destruct (f y) eqn:Hy.
  - intros [= <-]. by exists y.
  - destruct (findIndex f l) as [k|]; [|done]. simpl. intros [= <-].
    by apply IH.
Qed.

Lemma splice1_Permutation {T} (l : list T) idx x :
  l !! idx = Some x -> x :: splice1 idx l ≡ₚ l.
Proof.
  intros Hx. unfold splice1. rewrite <- (take_drop_middle l idx x Hx) at 3.
  by rewrite Permutation_middle.
Qed.

Lemma recordKept_refl st : recordKept st st.
Proof. by repeat split. Qed.

Lemma recordKept_trans st1 st2 st3 :
  recordKept st1 st2 -> recordKept st2 st3 -> recordKept st1 st3.
Proof.
  unfold recordKept, sameSetup.
  intros ((?&?&?&?)&?&?&?) ((?&?&?&?)&?&?&?). repeat split; congruence.
Qed.

Lemma drawOffsets_recordKept w offsets : forall st,
  recordKept st (outcomeState (drawOffsets offsets w st)).
Proof.
  induction offsets as [|o offsets IH]; intros st; [apply recordKept_refl|].
  cbn [drawOffsets]. unfold drawFor.
  destruct (hands st !! ((w + o) mod 6)%nat) as [h|]; [|apply recordKept_refl].
  cbn [andThen]. eapply recordKept_trans; [|apply IH].
  repeat split; simpl. apply length_insert.
Qed.

Lemma settleTrick_recordKept plays st :
  recordKept st (outcomeState (settleTrick plays st)).
Proof.
  unfold settleTrick.
  destruct (resolveTrick plays (trump st)) as [e|r]; [apply recordKept_refl|].
  destruct (tie r); [by repeat split|].
  destruct (winner r) as [w|]; [|apply recordKept_refl].
  cbv zeta. case_decide; [|by repeat split].
  eapply recordKept_trans; [|apply drawOffsets_recordKept]. by repeat split.
Qed.

(** X15.  [legalMoves] and [playCard] agree.  In a state with six hands,
    [legalMoves] returns the empty list for a player who is not to act and
    the player's whole hand otherwise, and [playCard] accepts a card (runs
    to its end without throwing) exactly when that card is among the legal
    moves. *)
Theorem legalMoves_playCard (st : MatchState) (p : nat) (c : Card) :
  length (hands st) = 6%nat ->
  exists moves,
    legalMoves st p = inr moves /\
    (p <> turnPlayer st -> moves = []) /\
    (p = turnPlayer st -> hands st !! p = Some moves) /\
    ((exists st', playCard st p c = Returned tt st') <-> c ∈ moves).
Proof.
  intros Hlen. unfold legalMoves, playCard.
  destruct (decide (p <> turnPlayer st)) as [Hp|Hp].
  - exists []. split; [done|]. split; [done|]. split; [done|].
    split; [by intros [st' ?]|by intros ?%elem_of_nil].
  - assert (p = turnPlayer st) as Hturn by (by destruct (decide (p = turnPlayer st))).
    destruct (lookup_lt_is_Some_2 (hands st) p) as [hand Hhand].
    { rewrite Hlen, Hturn. apply Nat.mod_upper_bound. lia. }
    rewrite Hhand. exists hand. split; [done|]. split; [done|]. split; [done|].
    split.
    + intros [st' Hplay].
      destruct (findIndex _ hand) as [idx|] eqn:Hidx; [|done].
      apply findIndex_Some in Hidx as (x & Hx & ->%sameCard_true).
      by eapply list_elem_of_lookup_2.
    + intros Hc. destruct (findIndex_removeFirst c hand Hc) as (idx & -> & _).
      cbv zeta. case_decide; [|by eexists].
      apply settleTrick_returns.
      * simpl. by rewrite length_insert.
      * by destruct (default [] (currentTrick st)).
Qed.

Lemma legalMoves_playCard_witness :
  exists moves, legalMoves sampleState 5 = inr moves /\
    ((exists st', playCard sampleState 5 (mkCard hearts R7) = Returned tt st')
     <-> mkCard hearts R7 ∈ moves).
Proof.
  destruct (legalMoves_playCard sampleState 5 (mkCard hearts R7))
    as (moves & Hmoves & _ & _ & Hiff).
  - reflexivity.
  - exists moves. split; [exact Hmoves|exact Hiff].
Defined.

(** X16.  A play that does not complete the trick only moves the card: it
    leaves the hand (its first copy), joins the trick in progress and the
    log, the turn passes to the next seat, and pile, scores, tie points and
    lead stay as they were. *)
Theorem playCard_passes_turn (st : MatchState) (p : nat) (c : Card)
    (hand : list Card) :
  p = turnPlayer st -> hands st !! p = Some hand -> c ∈ hand ->
  length (default [] (currentTrick st)) <> 5%nat ->
  exists st',
    playCard st p c = Returned tt st' /\
    hands st' = <[p := removeFirst c hand]> (hands st) /\
    currentTrick st' = Some (default [] (currentTrick st) ++ [mkPlay p c]) /\
    log st' = log st ++ [mkLog p c "play"] /\
    turnPlayer st' = (S p mod 6)%nat /\
    deck st' = deck st /\ scores st' = scores st /\
    tiePoints st' = tiePoints st /\ leadPlayer st' = leadPlayer st.
Proof.
  intros Hp Hhand Hc Hlen. unfold playCard.
  rewrite decide_False by (by intros ?).
  destruct (findIndex_removeFirst c hand Hc) as (idx & Hidx & Hsplice).
  rewrite Hhand, Hidx, Hsplice. cbv zeta.
  rewrite decide_False
    by (rewrite length_app; change (length [mkPlay p c]) with 1%nat; lia).
  eexists. split; [done|]. cbn [hands currentTrick log deck scores tiePoints
    leadPlayer logPlay setLog setCurrentTrick setHands]. repeat split.
  unfold turnPlayer.
  cbn [currentTrick leadPlayer logPlay setLog setCurrentTrick setHands default].
  change (id (default [] (currentTrick st) ++ [mkPlay p c]))
    with (default [] (currentTrick st) ++ [mkPlay p c]).
  rewrite length_app. change (length [mkPlay p c]) with 1%nat.
  rewrite Hp. unfold turnPlayer.
  replace (leadPlayer st + (length (default [] (currentTrick st)) + 1))%nat
    with ((leadPlayer st + length (default [] (currentTrick st))) + 1)%nat by lia.
  rewrite <- Nat.Div0.add_mod_idemp_l. f_equal. lia.
Qed.

Lemma playCard_passes_turn_witness :
  exists st',
    playCard (setCurrentTrick None sampleState) 0 (mkCard spades RK)
      = Returned tt st' /\ turnPlayer st' = 1%nat.
Proof.
  destruct (playCard_passes_turn (setCurrentTrick None sampleState) 0
              (mkCard spades RK) [mkCard hearts R4; mkCard spades RK])
    as (st' & Hplay & _ & _ & _ & Hturn & _).
  - reflexivity.
  - reflexivity.
  - apply elem_of_cons; right; apply elem_of_cons; left; reflexivity.
  - discriminate.
  - exists st'. split; [exact Hplay|exact Hturn].
Defined.

(** X17.  Every accepted [playCard] accounts for its card and for the
    points: the log grows by exactly that play, hands and pile together
    lose exactly that card, and the points already awarded, the points
    lying in the trick and the points still in hands and pile add up to
    the same total before and after, also when the play completes the
    trick. *)
Theorem playCard_conserves (st st' : MatchState) (p : nat) (c : Card) :
  playCard st p c = Returned tt st' ->
  log st' = log st ++ [mkLog p c "play"] /\
  c :: concat (hands st') ++ deck st' ≡ₚ concat (hands st) ++ deck st /\
  pointsAwarded st' + cardPoints (tableCards st')
    + cardPoints (concat (hands st') ++ deck st')
  = pointsAwarded st + cardPoints (tableCards st)
    + cardPoints (concat (hands st) ++ deck st) /\
  length (hands st') = length (hands st).
Proof.
  unfold playCard. case_decide; [done|].
  destruct (hands st !! p) as [hand|] eqn:Hhand; [|done].
  destruct (findIndex _ hand) as [idx|] eqn:Hidx; [|done].
  apply findIndex_Some in Hidx as (x & Hx & ->%sameCard_true).
  pose proof (splice1_Permutation hand idx c Hx) as Hsplice.
  assert (c :: concat (<[p := splice1 idx hand]> (hands st)) ≡ₚ concat (hands st))
    as Hhands.
  { set (sp := splice1 idx hand) in *. clearbody sp.
    apply (inj (.++ sp)).
    rewrite <- (concat_insert_Permutation (hands st) p hand sp Hhand).
    rewrite <- Hsplice. simpl. by rewrite Permutation_middle. }
  cbv zeta. set (trick := default [] (currentTrick st)).
  case_decide as Hsix.
  - intros Hsettle.
    pose proof (settleTrick_recordKept (trick ++ [mkPlay p c])
                  (setCurrentTrick (Some [])
                     (logPlay p c
                        (setCurrentTrick (Some (trick ++ [mkPlay p c]))
                           (setHands (<[p:=splice1 idx hand]> (hands st)) st)))))
      as (_ & Hlog & Htrick & _).
    rewrite Hsettle in Hlog, Htrick. simpl in Hlog, Htrick.
    apply settleTrick_inv in Hsettle as (_ & Hl & Hperm & Hpts & _).
    simpl in Hl, Hperm, Hpts. rewrite length_insert in Hl.
    split; [done|]. split.
    { by rewrite Hperm, app_comm_cons, Hhands. }
    split; [|done].
    rewrite (cardPoints_Permutation _ _ Hperm).
    unfold tableCards. rewrite Htrick. simpl.
    rewrite Hpts. unfold pointsAwarded at 1. simpl.
    rewrite trickPoints_cardPoints, fmap_app, !cardPoints_app.
    rewrite <- (cardPoints_Permutation _ _ Hhands). simpl.
    unfold pointsAwarded, tableCards. fold trick. lia.
  - intros [= <-]. simpl. split; [done|]. split.
    { by rewrite app_comm_cons, Hhands. }
    split; [|apply length_insert].
    unfold pointsAwarded, tableCards. simpl. fold trick.
    rewrite fmap_app, !cardPoints_app.
    rewrite <- (cardPoints_Permutation _ _ Hhands). simpl. lia.
Qed.

Lemma playCard_conserves_witness :
  exists st',
    playCard sampleState 5 (mkCard diamonds R7) = Returned tt st' /\
    log st' = log sampleState ++ [mkLog 5 (mkCard diamonds R7) "play"].
Proof.
  destruct (playCard sampleState 5 (mkCard diamonds R7)) as [[] st'|e st'] eqn:Hplay.
  - exists st'. split; [reflexivity|].
    apply (playCard_conserves sampleState st' 5 (mkCard diamonds R7) Hplay).
  - vm_compute in Hplay. discriminate Hplay.
Defined.

(** X18.  Whatever it does, and whether it returns or throws, [playCard]
    never touches the setup of the hand: seed, trump suit, trump card and
    punishment queue stay as they were, and the number of hands does not
    change. *)
Theorem playCard_keeps_setup (st : MatchState) (p : nat) (c : Card) :
  sameSetup st (outcomeState (playCard st p c)) /\
  length (hands (outcomeState (playCard st p c))) = length (hands st).
Proof.
  unfold playCard. case_decide; [by repeat split|].
  destruct (hands st !! p) as [hand|]; [|by repeat split].
  destruct (findIndex _ hand) as [idx|]; [|by repeat split].
  cbv zeta. case_decide.
  - match goal with |- context [settleTrick ?pl ?s] =>
      destruct (settleTrick_recordKept pl s) as (Hsetup & _ & _ & Hl) end.
    simpl in Hl. rewrite length_insert in Hl. split; [|done].
    destruct Hsetup as (?&?&?&?). by repeat split.
  - simpl. split; [by repeat split|apply length_insert].
Qed.

(** ** playHand: what it keeps, and what it plays *)

Lemma handKept_refl st : handKept st st.
Proof. by repeat split. Qed.

Lemma handKept_trans st1 st2 st3 :
  handKept st1 st2 -> handKept st2 st3 -> handKept st1 st3.
Proof.
  unfold handKept, sameSetup.
  intros ((?&?&?&?)&?&?) ((?&?&?&?)&?&?). repeat split; congruence.
Qed.

Lemma recordKept_handKept st st' : recordKept st st' -> handKept st st'.
Proof. intros (?&?&?&?). by split. Qed.

Lemma collectPlays_handKept offsets : forall plays st,
  handKept st (outcomeState (collectPlays offsets plays st)).
Proof.
  induction offsets as [|i offsets IH]; intros plays st; [apply handKept_refl|].
  cbn [collectPlays]. unfold playFirstCard.
  destruct (hands st !! ((leadPlayer st + i) mod 6)%nat) as [[|c h]|];
    [| |apply handKept_refl]; cbn [andThen]; [apply IH|].
  eapply handKept_trans; [|apply IH].
  repeat split; simpl. apply length_insert.
Qed.

Lemma playHandTrick_handKept st : handKept st (outcomeState (playHandTrick st)).
Proof.
  unfold playHandTrick.
  pose proof (collectPlays_handKept (seq 0 6) [] st) as Hcollect.
  destruct (collectPlays (seq 0 6) [] st) as [plays st1|e st1]; [|done].
  cbn [andThen]. simpl in Hcollect.
  eapply handKept_trans; [done|].
  apply recordKept_handKept, settleTrick_recordKept.
Qed.

(** X19.  However long it runs and however it ends, [playHand] never
    touches seed, trump suit, trump card, punishment queue or the trick in
    progress, and never changes the number of hands; when it returns, the
    value returned is the state itself. *)
Theorem playHand_keeps_setup (fuel : nat) (st : MatchState)
    (out : Outcome MatchState) :
  playHand fuel st = Some out ->
  handKept st (outcomeState out) /\
  (forall v st', out = Returned v st' -> v = st').
Proof.
  revert st. induction fuel as [|fuel IH]; intros st; simpl.
  - case_decide; [done|]. intros [= <-]. split; [apply handKept_refl|].
    by intros v st' [= <- <-].
  - case_decide; [|intros [= <-]; split; [apply handKept_refl|];
                   by intros v st' [= <- <-]].
    pose proof (playHandTrick_handKept st) as Htrick.
    destruct (playHandTrick st) as [[] st1|e st1]; simpl in Htrick.
    + intros Hrun. destruct (IH _ Hrun) as [Hkept Hval].
      split; [by eapply handKept_trans|done].
    + intros [= <-]. split; [done|]. by intros v st' [=].
Qed.

Lemma playHand_keeps_setup_witness :
  exists st', playHand 21 sampleState = Some (Returned st' st') /\
              trump st' = spades /\ currentTrick st' = currentTrick sampleState.
Proof.
  destruct (playHand 21 sampleState) as [[v st'|e st']|] eqn:Hrun.
  - destruct (playHand_keeps_setup 21 sampleState (Returned v st') Hrun)
      as (((_ & Ht & _) & Hc & _) & Hval).
    exists st'. rewrite (Hval v st' eq_refl). split; [reflexivity|].
    split; [exact Ht|exact Hc].
  - vm_compute in Hrun. discriminate Hrun.
  - vm_compute in Hrun. discriminate Hrun.
Defined.

(** X20.  With nothing in any hand, [playHand] returns at once and leaves
    the state as it is, even without any iteration allowed and even when
    the pile still holds cards: cards in the pile are never played. *)
Theorem playHand_nothing_to_play (fuel : nat) (st : MatchState) :
  Forall (fun h => h = []) (hands st) ->
  playHand fuel st = Some (Returned st st).
Proof.
  intros Hempty.
  assert (cardsRemaining st = 0%nat) as Hzero.
  { rewrite cardsRemaining_length.
    induction Hempty as [|h hs -> _ IH]; [done|]. by simpl. }
  destruct fuel; simpl; rewrite Hzero; by rewrite decide_False by lia.
Qed.

Lemma playHand_nothing_to_play_witness :
  playHand 0 (setHands [[]; []; []; []; []; []] sampleState)
  = Some (Returned (setHands [[]; []; []; []; []; []] sampleState)
                   (setHands [[]; []; []; []; []; []] sampleState)).
Proof.
  apply (playHand_nothing_to_play 0 (setHands [[]; []; []; []; []; []] sampleState)).
  repeat constructor.
Defined.

Lemma playFirstCard_log i plays st plays' st' :
  playFirstCard i plays st = Returned plays' st' ->
  exists new, plays' = plays ++ new /\
              log st' = log st ++ (logEntryOf <$> new) /\
              Forall (fun pl => (player pl < 6)%nat) new.
Proof.
  assert (Hseat : ((leadPlayer st + i) mod 6 < 6)%nat)
    by (apply Nat.mod_upper_bound; lia).
  unfold playFirstCard.
  destruct (hands st !! ((leadPlayer st + i) mod 6)%nat) as [[|c h]|];
    [| |done]; intros [= <- <-].
  - exists []. by rewrite !app_nil_r.
  - eexists [_]. split; [done|]. split; [done|].
    constructor; [exact Hseat|done].
Qed.

Lemma collectPlays_log offsets : forall plays st plays' st',
  collectPlays offsets plays st = Returned plays' st' ->
  exists new, plays' = plays ++ new /\
              log st' = log st ++ (logEntryOf <$> new) /\
              Forall (fun pl => (player pl < 6)%nat) new.
Proof.
  induction offsets as [|i offsets IH]; intros plays st plays' st'.
  - intros [= <- <-]. exists []. by rewrite !app_nil_r.
  - cbn [collectPlays].
    destruct (playFirstCard i plays st) as [plays1 st1|] eqn:Hfirst; [|done].
    cbn [andThen]. intros Hrest.
    apply playFirstCard_log in Hfirst as (new1 & -> & Hlog1 & Hall1).
    apply IH in Hrest as (new2 & -> & Hlog2 & Hall2).
    exists (new1 ++ new2). rewrite app_assoc. split; [done|].
    split; [|by apply Forall_app].
    by rewrite Hlog2, Hlog1, fmap_app, app_assoc.
Qed.

Lemma cardPoints_nonneg l : 0 <= cardPoints l.
Proof.
  unfold cardPoints. induction l as [|c l IH]; simpl; [done|].
  destruct (rank c); simpl; lia.
Qed.

Lemma settleTrick_no_tie plays st st' :
  NoDup (card <$> plays) -> settleTrick plays st = Returned tt st' ->
  tiePoints st' = 0 /\
  exists w, scores st' =
            addScore (teamOfPlayer w) (trickPoints plays + tiePoints st) (scores st).
Proof.
  intros Hnd. unfold settleTrick.
  destruct (resolveTrick plays (trump st)) as [e|r] eqn:Hr; [done|].
  assert (plays <> []) as Hne by (by intros ->).
  destruct (resolveTrick_total plays (trump st) Hne) as (r' & Hr' & Hpts & Hcases).
  rewrite Hr in Hr'. injection Hr' as <-.
  rewrite (resolveTrick_distinct_no_tie _ _ _ Hnd Hr) in *.
  destruct Hcases as [[? _]|[_ [w Hw]]]; [done|]. rewrite Hw. cbv zeta.
  case_decide.
  - intros ->%drawAfterTrick_inv. simpl. split; [done|]. exists w. by rewrite Hpts.
  - intros [= <-]. simpl. split; [done|]. exists w. by rewrite Hpts.
Qed.

Lemma dealtHandInvariant_trick st :
  dealtHandInvariant st -> (0 < cardsRemaining st)%nat ->
  exists st', playHandTrick st = Returned tt st' /\ dealtHandInvariant st'.
Proof.
  intros (Hinv & Hall & Htie & Hs1 & Hs2 & Hlog) Hcards.
  destruct (handInvariant_trick st Hinv Hcards) as (st' & Htrick & Hinv').
  exists st'. split; [done|]. split; [done|].
  unfold playHandTrick in Htrick.
  destruct (collectPlays (seq 0 6) [] st) as [plays st1|] eqn:Hcollect; [|done].
  cbn [andThen] in Htrick.
  pose proof (collectPlays_log _ _ _ _ _ Hcollect) as (new & Hnew & Hlog1 & Hseats).
  simpl in Hnew. subst new.
  apply collectPlays_inv in Hcollect as ((Hd&_&_&Hs&Ht&_) & Hperm & _ & _).
  simpl in Hperm.
  pose proof (settleTrick_recordKept plays st1) as (_ & Hlog' & _).
  rewrite Htrick in Hlog'. simpl in Hlog'.
  assert (NoDup (card <$> plays)) as Hnd.
  { destruct Hinv as (_ & Hnd & _). rewrite <- Hperm, <- app_assoc in Hnd.
    by apply NoDup_app in Hnd as (? & _). }
  destruct (settleTrick_no_tie _ _ _ Hnd Htrick) as (Htie' & w & Hscores).
  apply settleTrick_inv in Htrick as (_ & _ & Hperm' & _).
  split; [|split; [done|]].
  { unfold played. rewrite Hlog', Hlog1, fmap_app, <- list_fmap_compose.
    change (entryCard ∘ logEntryOf) with card.
    rewrite <- app_assoc, Hperm', Hd, (app_assoc (card <$> plays)), Hperm. done. }
  pose proof (cardPoints_nonneg (card <$> plays)) as Hpos.
  rewrite <- trickPoints_cardPoints in Hpos.
  rewrite Hscores, Hs, Ht, Htie.
  split; [destruct (teamOfPlayer w); simpl; lia|].
  split; [destruct (teamOfPlayer w); simpl; lia|].
  rewrite Hlog', Hlog1. apply Forall_app. split; [done|].
  apply Forall_fmap. eapply Forall_impl; [done|]. by intros pl Hpl.
Qed.

Lemma initMatch_fresh seed0 :
  exists st, initMatch seed0 = inr st /\ log st = [] /\
             scores st = (0, 0) /\ tiePoints st = 0.
Proof.
  assert (Hlen : length (createShuffledDeck (createRng (stringToSeed seed0))) = 36%nat)
    by apply length_createShuffledDeck.
  unfold initMatch.
  set (d := createShuffledDeck _) in *. clearbody d. spell_out d Hlen.
  eexists. split; [reflexivity|]. by cbn.
Qed.

Lemma initMatch_dealtHandInvariant seed0 :
  exists st, initMatch seed0 = inr st /\ dealtHandInvariant st /\
             totalCards st = 36%nat.
Proof.
  destruct (initMatch_invariant seed0) as (st & Hinit & Hinv & Htotal).
  destruct (initMatch_fresh seed0) as (st1 & Hinit1 & Hlog & Hs & Ht).
  destruct (initMatch_trump_shape seed0)
    as (st2 & tc & rest & Hinit2 & Hdeal & Hhands & Hdeck & _).
  rewrite Hinit in Hinit1, Hinit2.
  injection Hinit1 as <-. injection Hinit2 as <-.
  exists st. split; [done|]. split; [|done].
  split; [done|]. unfold played. rewrite Hlog, Hs, Ht. simpl.
  split; [|by repeat split].
  rewrite Hhands, Hdeck, <- Permutation_cons_append, <- Hdeal.
  rewrite deal_Permutation. apply createShuffledDeck_Permutation.
Qed.

(** X21.  For every seed, the hand played by [playHand] from [initMatch]
    plays every card of the deck exactly once: the log ends with 36 entries
    whose cards are the 36 cards of the deck, each entry a play by one of
    the seats 0..5; no trick ties, so no tie points are left, and neither
    score is negative. *)
Theorem playHand_plays_every_card (seed0 : JsString) :
  exists st0 st',
    initMatch seed0 = inr st0 /\
    (forall fuel, (36 <= fuel)%nat -> playHand fuel st0 = Some (Returned st' st')) /\
    played st' ≡ₚ orderedDeck /\
    length (log st') = 36%nat /\
    Forall goodEntry (log st') /\
    tiePoints st' = 0 /\ 0 <= (scores st').1 /\ 0 <= (scores st').2.
Proof.
  destruct (initMatch_dealtHandInvariant seed0) as (st0 & Hinit & Hinv & Htotal).
  destruct (playHand_invariant dealtHandInvariant dealtHandInvariant_trick 36 st0 Hinv)
    as (st' & Hrun & ((Hsix & _ & _ & Hfull) & Hall & Htie & Hs1 & Hs2 & Hlog) & Hdone);
    [lia|].
  exists st0, st'. split; [done|].
  split; [intros fuel Hfuel; by eapply playHand_fuel_mono|].
  rewrite cardsRemaining_length in Hdone.
  assert (concat (hands st') = []) as Hempty by (by destruct (concat (hands st'))).
  assert (deck st' = []) as Hdeck.
  { destruct Hfull as [|Hfull]; [done|]. exfalso.
    destruct (hands st') as [|h hs]; [done|].
    apply Forall_cons in Hfull as [Hh _]. simpl in Hempty.
    apply app_eq_nil in Hempty as [-> _]. simpl in Hh. lia. }
  rewrite Hempty, Hdeck, !app_nil_r in Hall.
  split; [done|]. split; [|done].
  apply Permutation_length in Hall. unfold played in Hall.
  by rewrite length_fmap in Hall.
Qed.

Lemma playHand_plays_every_card_witness :
  exists st0 st',
    initMatch (codeUnits "demo-0") = inr st0 /\
    playHand 36 st0 = Some (Returned st' st') /\
    length (log st') = 36%nat.
Proof.
  destruct (playHand_plays_every_card (codeUnits "demo-0"))
    as (st0 & st' & Hinit & Hrun & _ & Hlen & _).
  exists st0, st'. split; [exact Hinit|].
  split; [apply Hrun; apply le_n|exact Hlen].
Defined.

(** ** The two-trick demo *)

(** X22.  [initDemoMatch] and [initMatch] deal the same hands and read the
    same trump from the same card; they differ only in where that card
    ends up: the demo leaves it on top of the pile, the match moves it to
    the bottom. *)
Theorem initDemoMatch_initMatch (seed0 : JsString) :
  exists dst mst tc rest,
    Demo.initDemoMatch seed0 = inr dst /\ initMatch seed0 = inr mst /\
    Demo.hands dst = hands mst /\ Demo.trump dst = trump mst /\
    trumpCard mst = tc /\
    Demo.deck dst = tc :: rest /\ deck mst = rest ++ [tc] /\
    Demo.leadPlayer dst = leadPlayer mst /\ Demo.scores dst = scores mst /\
    Demo.tiePoints dst = tiePoints mst /\ Demo.log dst = [] /\
    Demo.punishment dst = newPunishmentQueue.
Proof.
  assert (Hlen : length (createShuffledDeck (createRng (stringToSeed seed0))) = 36%nat)
    by apply length_createShuffledDeck.
  unfold Demo.initDemoMatch, initMatch.
  set (d := createShuffledDeck _) in *. clearbody d. spell_out d Hlen.
  do 4 eexists. split; [reflexivity|]. split; [reflexivity|]. cbn.
  repeat split; reflexivity.
Qed.

Lemma takeCard_punishment st pl :
  Demo.punishment (demoOutcomeState (Demo.takeCard st pl)) = Demo.punishment st /\
  Demo.deck (demoOutcomeState (Demo.takeCard st pl)) = Demo.deck st /\
  Demo.trump (demoOutcomeState (Demo.takeCard st pl)) = Demo.trump st /\
  Demo.seed (demoOutcomeState (Demo.takeCard st pl)) = Demo.seed st.
Proof.
  unfold Demo.takeCard. destruct (Demo.hands st !! player pl) as [hand|]; [|done].
  by destruct (findIndex _ hand).
Qed.

Lemma takeCards_punishment plays : forall st,
  Demo.punishment (demoOutcomeState (Demo.takeCards plays st)) = Demo.punishment st /\
  Demo.deck (demoOutcomeState (Demo.takeCards plays st)) = Demo.deck st /\
  Demo.trump (demoOutcomeState (Demo.takeCards plays st)) = Demo.trump st /\
  Demo.seed (demoOutcomeState (Demo.takeCards plays st)) = Demo.seed st.
Proof.
  induction plays as [|pl plays IH]; intros st; [done|].
  cbn [Demo.takeCards]. pose proof (takeCard_punishment st pl) as Hone.
  destruct (Demo.takeCard st pl) as [st1|e st1]; [|done].
  simpl in Hone. destruct (IH st1) as (?&?&?&?), Hone as (?&?&?&?).
  repeat split; congruence.
Qed.

Lemma playDemoTrick_frame (st : Demo.DemoState) (plays : list TrickPlay) :
  Demo.punishment (demoOutcomeState (Demo.playDemoTrick st plays))
    = Demo.punishment st /\
  Demo.deck (demoOutcomeState (Demo.playDemoTrick st plays)) = Demo.deck st /\
  Demo.trump (demoOutcomeState (Demo.playDemoTrick st plays)) = Demo.trump st /\
  Demo.seed (demoOutcomeState (Demo.playDemoTrick st plays)) = Demo.seed st.
Proof.
  unfold Demo.playDemoTrick. cbv zeta.
  pose proof (takeCards_punishment plays st) as Htake.
  destruct (Demo.takeCards plays st) as [st1|e st1]; [|done].
  simpl in Htake.
  destruct (resolveTrick plays (Demo.trump st)) as [e|r]; [done|].
  destruct (tie r); [done|].
  destruct (winner r) as [w|]; [|done].
  cbn [Demo.tiePoints Demo.setLeadPlayer Demo.setTiePoints].
  rewrite (bool_decide_eq_false_2 (0 < 0)) by lia.
  by rewrite andb_false_r.
Qed.

(** X23.  [playDemoTrick] never submits to the punishment queue: its
    trigger tests the tie points right after resetting them to 0, so
    whatever the plays and however the call ends, the queue is left as it
    was; pile, trump and seed are left alone as well. *)
Theorem playDemoTrick_never_punishes (st : Demo.DemoState) (plays : list TrickPlay) :
  Demo.punishment (demoOutcomeState (Demo.playDemoTrick st plays))
    = Demo.punishment st /\
  Demo.deck (demoOutcomeState (Demo.playDemoTrick st plays)) = Demo.deck st /\
  Demo.trump (demoOutcomeState (Demo.playDemoTrick st plays)) = Demo.trump st /\
  Demo.seed (demoOutcomeState (Demo.playDemoTrick st plays)) = Demo.seed st.
Proof. apply playDemoTrick_frame. Qed.

Lemma takeCards_log plays : forall st st1,
  Demo.takeCards plays st = Demo.Returned st1 ->
  Demo.log st1 = Demo.log st ++ (logEntryOf <$> plays) /\
  (card <$> plays) ++ concat (Demo.hands st1) ≡ₚ concat (Demo.hands st) /\
  Demo.scores st1 = Demo.scores st /\ Demo.tiePoints st1 = Demo.tiePoints st /\
  Demo.leadPlayer st1 = Demo.leadPlayer st /\
  length (Demo.hands st1) = length (Demo.hands st).
Proof.
  induction plays as [|pl plays IH]; intros st st1.
  - intros [= <-]. by rewrite app_nil_r.
  - cbn [Demo.takeCards]. unfold Demo.takeCard.
    destruct (Demo.hands st !! player pl) as [hand|] eqn:Hhand; [|done].
    destruct (findIndex _ hand) as [idx|] eqn:Hidx; [|done].
    apply findIndex_Some in Hidx as (x & Hx & Hsame%sameCard_true). subst x.
    intros (Hlog & Hperm & Hs & Ht & Hl & Hn)%IH. simpl in *.
    rewrite length_insert in Hn.
    split; [by rewrite Hlog, <- app_assoc|]. split; [|done].
    rewrite Hperm. set (sp := splice1 idx hand) in *.
    pose proof (splice1_Permutation hand idx (card pl) Hx) as Hsplice.
    fold sp in Hsplice. clearbody sp.
    apply (inj (.++ sp)).
    rewrite <- (concat_insert_Permutation (Demo.hands st) (player pl) hand sp Hhand).
    rewrite <- Hsplice. simpl. by rewrite Permutation_middle.
Qed.

(** X24.  [playDemoTrick] is not atomic.  When a play further down the list
    names a card its player does not hold, the call throws, but the plays
    before it have already been carried out: their cards are gone from the
    hands and their entries are in the log, while scores and lead are as
    before. *)
Theorem playDemoTrick_partial (st st1 : Demo.DemoState)
    (pre post : list TrickPlay) (bad : TrickPlay) (hand : list Card) :
  Demo.takeCards pre st = Demo.Returned st1 ->
  Demo.hands st1 !! player bad = Some hand -> card bad ∉ hand ->
  Demo.playDemoTrick st (pre ++ bad :: post) = Demo.Threw MissingCard st1 /\
  Demo.log st1 = Demo.log st ++ (logEntryOf <$> pre) /\
  (card <$> pre) ++ concat (Demo.hands st1) ≡ₚ concat (Demo.hands st) /\
  Demo.scores st1 = Demo.scores st /\ Demo.leadPlayer st1 = Demo.leadPlayer st.
Proof.
  intros Hpre Hhand Hbad.
  pose proof (takeCards_log pre st st1 Hpre) as (Hlog & Hperm & Hs & _ & Hl & _).
  split; [|done].
  unfold Demo.playDemoTrick. cbv zeta.
  assert (Demo.takeCards (pre ++ bad :: post) st = Demo.Threw MissingCard st1) as ->;
    [|done].
  clear Hlog Hperm Hs Hl. revert st Hpre.
  induction pre as [|pl pre IH]; intros st.
  - intros [= ->]. cbn [app Demo.takeCards]. unfold Demo.takeCard.
    by rewrite Hhand, findIndex_missing.
  - cbn [app Demo.takeCards].
    destruct (Demo.takeCard st pl) as [st2|]; [|done]. apply IH.
Qed.

Lemma playDemoTrick_partial_witness :
  exists st1,
    Demo.playDemoTrick
      (Demo.mkDemo [] [] spades 0
         [[mkCard hearts RA]; [mkCard clubs R3]; []; []; []; []] (0, 0) 0
         newPunishmentQueue [])
      [mkPlay 0 (mkCard hearts RA); mkPlay 1 (mkCard hearts RK)]
    = Demo.Threw MissingCard st1 /\
    Demo.hands st1 = [[]; [mkCard clubs R3]; []; []; []; []] /\
    length (Demo.log st1) = 1%nat.
Proof.
  eexists. split.
  - apply (playDemoTrick_partial _ _ [mkPlay 0 (mkCard hearts RA)] []
             (mkPlay 1 (mkCard hearts RK)) [mkCard clubs R3]).
    + reflexivity.
    + reflexivity.
    + intros Hin. apply list_elem_of_singleton in Hin. discriminate Hin.
  - split; reflexivity.
Defined.

Lemma playDemoTrick_returned (st st' : Demo.DemoState) (plays : list TrickPlay) :
  Demo.playDemoTrick st plays = Demo.Returned st' ->
  plays <> [] /\
  Demo.log st' = Demo.log st ++ (logEntryOf <$> plays) /\
  (card <$> plays) ++ concat (Demo.hands st') ≡ₚ concat (Demo.hands st) /\
  Demo.deck st' = Demo.deck st /\
  (Demo.scores st').1 + (Demo.scores st').2 + Demo.tiePoints st'
    = (Demo.scores st).1 + (Demo.scores st).2 + Demo.tiePoints st
      + cardPoints (card <$> plays) /\
  length (Demo.hands st') = length (Demo.hands st).
Proof.
  intros Hplay.
  pose proof (playDemoTrick_frame st plays) as (_ & Hdeck & _).
  rewrite Hplay in Hdeck. simpl in Hdeck.
  unfold Demo.playDemoTrick in Hplay. cbv zeta in Hplay.
  destruct (Demo.takeCards plays st) as [st1|] eqn:Htake; [|done].
  apply takeCards_log in Htake as (Hlog & Hperm & Hs & Ht & Hl & Hn).
  destruct (resolveTrick plays (Demo.trump st)) as [e|r] eqn:Hr; [done|].
  assert (plays <> []) as Hne by (by intros ->).
  destruct (resolveTrick_total plays (Demo.trump st) Hne)
    as (r' & Hr' & Hpts & Hcases).
  rewrite Hr in Hr'. injection Hr' as <-.
  rewrite trickPoints_cardPoints in Hpts.
  split; [done|].
  destruct Hcases as [[Htie Hwin]|[Htie [w Hwin]]]; rewrite Htie in Hplay.
  { injection Hplay as <-. simpl. repeat split; try done. rewrite Hs. lia. }
  rewrite Hwin in Hplay.
  cbn [Demo.tiePoints Demo.setLeadPlayer Demo.setTiePoints] in Hplay.
  rewrite (bool_decide_eq_false_2 (0 < 0)) in Hplay by lia.
  rewrite andb_false_r in Hplay. injection Hplay as <-. simpl.
  repeat split; try done.
  rewrite Hs. destruct (teamOfPlayer w); simpl; lia.
Qed.

(** X25.  A [playDemoTrick] that returns has moved exactly the played
    cards from the hands to the log, has credited exactly the trick's
    points (to a team, or to the tie points on a tie), and has drawn
    nothing: the demo never replenishes hands from the pile. *)
Theorem playDemoTrick_conserves (st st' : Demo.DemoState) (plays : list TrickPlay) :
  Demo.playDemoTrick st plays = Demo.Returned st' ->
  plays <> [] /\
  Demo.log st' = Demo.log st ++ (logEntryOf <$> plays) /\
  (card <$> plays) ++ concat (Demo.hands st') ≡ₚ concat (Demo.hands st) /\
  Demo.deck st' = Demo.deck st /\
  (Demo.scores st').1 + (Demo.scores st').2 + Demo.tiePoints st'
    = (Demo.scores st).1 + (Demo.scores st).2 + Demo.tiePoints st
      + cardPoints (card <$> plays) /\
  length (Demo.hands st') = length (Demo.hands st).
Proof. apply playDemoTrick_returned. Qed.

Lemma playDemoTrick_conserves_witness :
  exists st',
    Demo.playDemoTrick
      (Demo.mkDemo [] [] spades 0
         [[mkCard hearts RA]; [mkCard clubs R3]; []; []; []; []] (0, 0) 0
         newPunishmentQueue [])
      [mkPlay 0 (mkCard hearts RA); mkPlay 1 (mkCard clubs R3)]
    = Demo.Returned st' /\
    (Demo.scores st').1 + (Demo.scores st').2 + Demo.tiePoints st' = 11.
Proof.
  eexists. split; [reflexivity|].
  apply (playDemoTrick_conserves
           (Demo.mkDemo [] [] spades 0
              [[mkCard hearts RA]; [mkCard clubs R3]; []; []; []; []] (0, 0) 0
              newPunishmentQueue [])
           _ [mkPlay 0 (mkCard hearts RA); mkPlay 1 (mkCard clubs R3)]).
  reflexivity.
Defined.

Lemma sameCard_refl c : sameCard c c = true.
Proof. by apply sameCard_true. Qed.

Lemma takeCard_head st p c h :
  Demo.hands st !! p = Some (c :: h) ->
  Demo.takeCard st (mkPlay p c) =
  Demo.Returned
    (Demo.setLog (Demo.log st ++ [mkLog p c "play"])
       (Demo.setHands (<[p := h]> (Demo.hands st)) st)).
Proof.
  intros Hp. unfold Demo.takeCard. cbn [player card]. rewrite Hp.
  cbn [findIndex]. by rewrite sameCard_refl.
Qed.

Lemma playDemoTrick_settles st st1 plays :
  Demo.takeCards plays st = Demo.Returned st1 -> plays <> [] ->
  exists st', Demo.playDemoTrick st plays = Demo.Returned st' /\
              Demo.hands st' = Demo.hands st1 /\ Demo.log st' = Demo.log st1 /\
              Demo.punishment st' = Demo.punishment st1.
Proof.
  intros Htake Hne. unfold Demo.playDemoTrick. cbv zeta. rewrite Htake.
  destruct (resolveTrick_total plays (Demo.trump st) Hne) as (r & -> & _ & Hcases).
  destruct Hcases as [[-> _]|[-> [w ->]]]; [by eexists|].
  cbn [Demo.tiePoints Demo.setLeadPlayer Demo.setTiePoints].
  rewrite (bool_decide_eq_false_2 (0 < 0)) by lia. rewrite andb_false_r.
  by eexists.
Qed.

(** A trick in which every seat plays the first card of a non-empty hand,
    as [runDemo] builds it. *)
Lemma firstCards_trick guarded st :
  length (Demo.hands st) = 6%nat ->
  Forall (fun h => h <> []) (Demo.hands st) ->
  exists plays st',
    Demo.firstCards guarded (seq 0 6) (Demo.hands st) = inr plays /\
    Demo.playDemoTrick st plays = Demo.Returned st' /\
    card <$> plays = concat (take 1 <$> Demo.hands st) /\
    Demo.hands st' = tail <$> Demo.hands st /\
    Demo.log st' = Demo.log st ++ (logEntryOf <$> plays) /\
    Demo.punishment st' = Demo.punishment st.
Proof.
  intros Hlen Hfull.
  destruct (Demo.hands st) as [|h0 [|h1 [|h2 [|h3 [|h4 [|h5 [|? ?]]]]]]] eqn:Hhands;
    try discriminate Hlen. clear Hlen.
  repeat (apply Forall_cons in Hfull as [? Hfull]).
  destruct h0 as [|c0 h0]; [done|]. destruct h1 as [|c1 h1]; [done|].
  destruct h2 as [|c2 h2]; [done|]. destruct h3 as [|c3 h3]; [done|].
  destruct h4 as [|c4 h4]; [done|]. destruct h5 as [|c5 h5]; [done|].
  eexists.
  assert (exists st1,
            Demo.takeCards [mkPlay 0 c0; mkPlay 1 c1; mkPlay 2 c2;
                            mkPlay 3 c3; mkPlay 4 c4; mkPlay 5 c5] st
              = Demo.Returned st1 /\
            Demo.hands st1 = [h0; h1; h2; h3; h4; h5] /\
            Demo.log st1 = Demo.log st ++
              [mkLog 0 c0 "play"; mkLog 1 c1 "play"; mkLog 2 c2 "play";
               mkLog 3 c3 "play"; mkLog 4 c4 "play"; mkLog 5 c5 "play"] /\
            Demo.punishment st1 = Demo.punishment st) as (st1 & Htake & Hh1 & Hl1 & Hp1).
  { eexists. split.
    - cbn [Demo.takeCards].
      do 6 (erewrite takeCard_head;
            [|cbn [Demo.hands Demo.setLog Demo.setHands]; rewrite Hhands; reflexivity]).
      reflexivity.
    - cbn [Demo.hands Demo.log Demo.punishment Demo.setLog Demo.setHands].
      rewrite Hhands. split; [reflexivity|]. split; [|done].
      by rewrite <- !app_assoc. }
  destruct (playDemoTrick_settles st st1 _ Htake) as (st' & Hplay & Hh & Hl & Hp);
    [done|].
  exists st'. split; [reflexivity|]. split; [done|]. split; [reflexivity|].
  split; [by rewrite Hh, Hh1|]. split; [by rewrite Hl, Hl1|]. congruence.
Qed.

Lemma initDemoMatch_shape seed0 :
  let d := createShuffledDeck (createRng (stringToSeed seed0)) in
  exists st,
    Demo.initDemoMatch seed0 = inr st /\
    Demo.hands st = (deal d).1 /\ Demo.deck st = (deal d).2 /\
    Demo.log st = [] /\ Demo.punishment st = newPunishmentQueue /\
    Demo.scores st = (0, 0) /\ Demo.tiePoints st = 0 /\
    length (Demo.hands st) = 6%nat /\
    Forall (fun h => length h = 3%nat) (Demo.hands st).
Proof.
  intros d.
  assert (Hlen : length d = 36%nat) by apply length_createShuffledDeck.
  unfold Demo.initDemoMatch.
  change (createShuffledDeck (createRng (stringToSeed seed0))) with d.
  clearbody d. spell_out d Hlen.
  eexists. split; [reflexivity|]. cbn.
  repeat split; try reflexivity. repeat constructor.
Qed.

Lemma Forall_tail_length (n : nat) (hs : list (list Card)) :
  Forall (fun h => length h = S n) hs ->
  Forall (fun h => length h = n) (tail <$> hs) /\ Forall (fun h => h <> []) hs.
Proof.
  intros Hall. split.
  - apply Forall_fmap. eapply Forall_impl; [done|].
    intros [|c h] Hh; simpl in *; [done|lia].
  - eapply Forall_impl; [done|]. by intros [|c h] Hh.
Qed.

(** X26.  For every seed, [runDemo] plays its two tricks without an error
    escaping: every seat plays its first card, then its second.  At the end
    every player holds one card, the log has twelve entries, the pile still
    holds its eighteen cards, the punishment queue is untouched, the points
    awarded are those of the twelve cards played, and the log, the hands
    and the pile, read in that order, are the shuffled deck as it was
    dealt. *)
Theorem runDemo_two_tricks (seed0 : JsString) :
  exists st,
    Demo.runDemo seed0 = inr st /\
    length (Demo.hands st) = 6%nat /\
    Forall (fun h => length h = 1%nat) (Demo.hands st) /\
    length (Demo.log st) = 12%nat /\
    length (Demo.deck st) = 18%nat /\
    Demo.punishment st = newPunishmentQueue /\
    (Demo.scores st).1 + (Demo.scores st).2 + Demo.tiePoints st
      = cardPoints (entryCard <$> Demo.log st) /\
    (entryCard <$> Demo.log st) ++ concat (Demo.hands st) ++ Demo.deck st
      = createShuffledDeck (createRng (stringToSeed seed0)).
Proof.
  destruct (initDemoMatch_shape seed0)
    as (st0 & Hinit & Hhands0 & Hdeck0 & Hlog0 & Hpun0 & Hs0 & Ht0 & Hsix0 & Hthree).
  cbv zeta in Hhands0, Hdeck0.
  destruct (Forall_tail_length 2 _ Hthree) as [Htwo Hfull0].
  destruct (firstCards_trick false st0 Hsix0 Hfull0)
    as (plays1 & st1 & Hfirst1 & Hplay1 & Hcards1 & Hh1 & Hl1 & Hp1).
  rewrite <- Hh1 in Htwo.
  destruct (Forall_tail_length 1 _ Htwo) as [Hone Hfull1].
  assert (length (Demo.hands st1) = 6%nat) as Hsix1
    by (by rewrite Hh1, length_fmap).
  destruct (firstCards_trick true st1 Hsix1 Hfull1)
    as (plays2 & st2 & Hfirst2 & Hplay2 & Hcards2 & Hh2 & Hl2 & Hp2).
  exists st2. split.
  { unfold Demo.runDemo. by rewrite Hinit, Hfirst1, Hplay1, Hfirst2, Hplay2. }
  pose proof (playDemoTrick_returned _ _ _ Hplay1) as (_ & _ & _ & Hd1 & Hpts1 & _).
  pose proof (playDemoTrick_returned _ _ _ Hplay2) as (_ & _ & _ & Hd2 & Hpts2 & _).
  assert (entryCard <$> Demo.log st2 = (card <$> plays1) ++ (card <$> plays2)) as Hlogcards.
  { rewrite Hl2, Hl1, Hlog0. simpl.
    rewrite fmap_app, <- !list_fmap_compose. done. }
  split; [by rewrite Hh2, length_fmap|]. split; [by rewrite Hh2|].
  split.
  { rewrite <- (length_fmap entryCard), Hlogcards, length_app, Hcards1, Hcards2.
    rewrite Hh1, Hhands0.
    assert (length (createShuffledDeck (createRng (stringToSeed seed0))) = 36%nat)
      as Hlen by apply length_createShuffledDeck.
    set (d := createShuffledDeck _) in *. clearbody d. spell_out d Hlen.
    reflexivity. }
  split.
  { rewrite Hd2, Hd1, Hdeck0.
    assert (length (createShuffledDeck (createRng (stringToSeed seed0))) = 36%nat)
      as Hlen by apply length_createShuffledDeck.
    set (d := createShuffledDeck _) in *. clearbody d. spell_out d Hlen.
    reflexivity. }
  split; [congruence|]. split.
  { rewrite Hlogcards, cardPoints_app, Hpts2, Hpts1, Hs0, Ht0. simpl. lia. }
  rewrite Hlogcards, Hcards1, Hcards2, Hh2, Hh1, Hd2, Hd1, Hhands0, Hdeck0.
  assert (length (createShuffledDeck (createRng (stringToSeed seed0))) = 36%nat)
    as Hlen by apply length_createShuffledDeck.
  set (d := createShuffledDeck _) in *. clearbody d. spell_out d Hlen.
  reflexivity.
Qed.

(** ** Batch play and interactive play agree *)

Lemma drawOffsets_setCurrentTrick v w offsets : forall st,
  drawOffsets offsets w (setCurrentTrick v st)
  = mapState (setCurrentTrick v) (drawOffsets offsets w st).
Proof.
  induction offsets as [|o offsets IH]; intros st; [done|].
  cbn [drawOffsets]. unfold drawFor. cbn [hands deck setCurrentTrick].
  destruct (hands st !! ((w + o) mod 6)%nat) as [h|]; [|done].
  cbn [andThen]. rewrite <- IH. reflexivity.
Qed.

Lemma settleTrick_setCurrentTrick v plays st :
  settleTrick plays (setCurrentTrick v st)
  = mapState (setCurrentTrick v) (settleTrick plays st).
Proof.
  unfold settleTrick. cbn [trump setCurrentTrick].
  destruct (resolveTrick plays (trump st)) as [e|r]; [done|].
  destruct (tie r); [done|]. destruct (winner r) as [w|]; [|done].
  cbv zeta. cbn [deck setLeadPlayer setTiePoints setScores setCurrentTrick].
  case_decide; [|done].
  unfold drawAfterTrick. rewrite <- drawOffsets_setCurrentTrick. reflexivity.
Qed.

Lemma seat_inj l i j :
  (i < 6)%nat -> (j < 6)%nat -> ((l + i) mod 6 = (l + j) mod 6)%nat -> i = j.
Proof.
  intros Hi Hj.
  rewrite <- (Nat.Div0.add_mod_idemp_l l i), <- (Nat.Div0.add_mod_idemp_l l j).
  pose proof (Nat.mod_upper_bound l 6) as Hk.
  generalize dependent (l mod 6)%nat. intros k Hk.
  assert (k < 6)%nat as Hk' by lia. clear Hk.
  do 6 (destruct k as [|k];
        [do 6 (destruct i as [|i];
               [do 6 (destruct j as [|j]; [by (vm_compute; intros [=])|]); lia|]);
         lia|]).
  lia.
Qed.

(** One seat's move, made both ways from matching states: the [for] loop
    of [playHand] on [st], and [playFirstLegal] on the same state carrying
    the plays so far as its trick in progress. *)
Lemma playFirstLegal_step st v plays c h :
  default [] v = plays -> (length plays < 6)%nat ->
  hands st !! ((leadPlayer st + length plays) mod 6)%nat = Some (c :: h) ->
  let p := ((leadPlayer st + length plays) mod 6)%nat in
  let plays' := plays ++ [mkPlay p c] in
  let st' := logPlay p c (setHands (<[p := h]> (hands st)) st) in
  playFirstCard (length plays) plays st = Returned plays' st' /\
  playFirstLegal (setCurrentTrick v st) =
    if decide (length plays' = 6)%nat
    then settleTrick plays' (setCurrentTrick (Some []) st')
    else Returned tt (setCurrentTrick (Some plays') st').
Proof.
  intros Hv Hlen Hhand p plays' st'. subst p plays' st'. split.
  { unfold playFirstCard. by rewrite Hhand. }
  unfold playFirstLegal, legalMoves, playCard, turnPlayer.
  cbn [currentTrick leadPlayer hands setCurrentTrick]. rewrite Hv.
  rewrite decide_False by (by intros ?). rewrite Hhand.
  rewrite decide_False by (by intros ?).
  cbn [findIndex]. rewrite sameCard_refl. cbv zeta.
  change (splice1 0 (c :: h)) with h.
  case_decide; reflexivity.
Qed.

Lemma playFirstLegals_collectPlays n : forall plays st v,
  default [] v = plays -> (length plays + n = 6)%nat -> (0 < n)%nat ->
  (forall j, (length plays <= j < 6)%nat ->
     exists c h, hands st !! ((leadPlayer st + j) mod 6)%nat = Some (c :: h)) ->
  exists plays' st',
    collectPlays (seq (length plays) n) plays st = Returned plays' st' /\
    playFirstLegals n (setCurrentTrick v st)
      = settleTrick plays' (setCurrentTrick (Some []) st').
Proof.
  induction n as [|n IH]; intros plays st v Hv Hlen Hpos Hfull; [lia|].
  destruct (Hfull (length plays)) as (c & h & Hhand); [lia|].
  destruct (playFirstLegal_step st v plays c h Hv ltac:(lia) Hhand) as [Hfirst Hlegal].
  cbv zeta in Hfirst, Hlegal.
  set (p := ((leadPlayer st + length plays) mod 6)%nat) in *.
  set (plays1 := plays ++ [mkPlay p c]) in *.
  set (st1 := logPlay p c (setHands (<[p := h]> (hands st)) st)) in *.
  assert (length plays1 = S (length plays)) as Hlen1.
  { unfold plays1. rewrite length_app. simpl. lia. }
  cbn [seq collectPlays playFirstLegals]. rewrite Hfirst, Hlegal. cbn [andThen].
  destruct n as [|n].
  - rewrite decide_True by lia. exists plays1, st1. split; [done|].
    cbn [andThen]. by destruct (settleTrick _ _) as [[] ?|].
  - rewrite decide_False by lia. cbn [andThen].
    rewrite <- Hlen1.
    apply (IH plays1 st1 (Some plays1)); [done|lia|lia|].
    intros j Hj. destruct (Hfull j) as (c' & h' & Hj'); [lia|].
    exists c', h'. unfold st1. cbn [hands leadPlayer logPlay setLog setHands].
    rewrite list_lookup_insert_ne; [done|].
    unfold p. intros Heq. apply seat_inj in Heq; lia.
Qed.

(** X27.  Batch and interactive play agree on a full trick.  When every
    seat holds a card and no trick is in progress, six interactive moves in
    which the player to act plays the first legal move leave exactly the
    state that one iteration of [playHand] leaves, except that the trick in
    progress is then the empty list. *)
Theorem playHandTrick_as_playCards (st : MatchState) :
  (forall p, (p < 6)%nat -> exists c h, hands st !! p = Some (c :: h)) ->
  default [] (currentTrick st) = [] ->
  playFirstLegals 6 st
  = mapState (setCurrentTrick (Some [])) (playHandTrick st).
Proof.
  intros Hfull Htrick.
  destruct (playFirstLegals_collectPlays 6 [] st (currentTrick st) Htrick)
    as (plays & st' & Hcollect & Hlegals); [done|lia| |].
  { intros j _. apply Hfull, Nat.mod_upper_bound. lia. }
  assert (setCurrentTrick (currentTrick st) st = st) as Hst by (by destruct st).
  rewrite Hst in Hlegals. rewrite Hlegals.
  unfold playHandTrick. cbn [length] in Hcollect. rewrite Hcollect. cbn [andThen].
  apply settleTrick_setCurrentTrick.
Qed.

Lemma playHandTrick_as_playCards_witness :
  playFirstLegals 6 (setCurrentTrick None sampleState)
  = mapState (setCurrentTrick (Some []))
      (playHandTrick (setCurrentTrick None sampleState)).
Proof.
  apply (playHandTrick_as_playCards (setCurrentTrick None sampleState)).
  - intros p Hp.
    do 6 (destruct p as [|p]; [do 2 eexists; reflexivity|]). lia.
  - reflexivity.
Defined.

(** X28.  [resolveTrick] never reports a tie together with a winner, nor a
    missing winner without a tie: on every non-empty trick it returns, and
    [tie] is true exactly when [winner] is null.  So the scoring code that
    follows it, which tests [tie] and then [winner !== null], always takes
    one of its two branches. *)
Theorem resolveTrick_tie_iff_no_winner (plays : list TrickPlay) (trump : Suit) :
  plays <> [] ->
  exists r, resolveTrick plays trump = inr r /\
            (tie r = true <-> winner r = None) /\
            points r = cardPoints (card <$> plays) /\ 0 <= points r.
Proof.
  intros Hne.
  destruct (resolveTrick_total plays trump Hne) as (r & Hr & Hpts & Hcases).
  exists r. split; [done|]. rewrite Hpts, trickPoints_cardPoints.
  split; [|split; [done|apply cardPoints_nonneg]].
  destruct Hcases as [[-> ->]|[-> [w ->]]]; by split.
Qed.

Lemma resolveTrick_tie_iff_no_winner_witness :
  exists r, resolveTrick [mkPlay 2 (mkCard hearts R3)] spades = inr r /\
            (tie r = true <-> winner r = None).
Proof.
  destruct (resolveTrick_tie_iff_no_winner [mkPlay 2 (mkCard hearts R3)] spades)
    as (r & Hr & Hiff & _).
  - discriminate.
  - exists r. split; [exact Hr|exact Hiff].
Defined.
